(** * The in-memory counter store of [throttled/store] (mem.go)

    A shallow embedding of [memStore] and of its three operations [Get],
    [SetNX] and [CompareAndSwap], together with the constructor [NewMemStore].

    - Go's heap of [int64] cells is explicit: the store maps a key to a
      pointer ([*int64]), and [CompareAndSwap] writes through that pointer.
    - The unbounded store keeps its pointers in a Go map (a [gmap]); the
      bounded store keeps them in an LRU cache, whose recency order is part
      of the state.
    - Sequential calls thread a [World] (heap and store) explicitly; the
      racing [SetNX] calls of the last part are interleavings of atomic
      actions over the goroutines' program counters and the store's
      [sync.RWMutex]. *)

From stdpp Require Import gmap strings list fin_maps sorting.
From Stdlib Require Import ZArith Lia.

Local Open Scope string_scope.
Local Open Scope list_scope.
Local Open Scope nat_scope.

(** ** Heap of [int64] cells *)

(** A pointer [*int64]: the index of a cell. *)
Abbreviation loc := nat (only parsing).

(** The cells the program has allocated so far are those below [brk]; a
    [v := value; &v] takes the cell at [brk].  Values are [int64]; the store
    never does arithmetic on them, so they are carried as [Z]. *)
Record Heap := mkHeap { cell : loc → Z; brk : loc }.

Definition store_cell (p : loc) (v : Z) (h : Heap) : Heap :=
  {| cell := λ q, if decide (q = p) then v else cell h q; brk := brk h |}.

Definition alloc (v : Z) (h : Heap) : loc * Heap :=
  (brk h, {| cell := λ q, if decide (q = brk h) then v else cell h q;
             brk := S (brk h) |}).

(** [atomic.LoadInt64]. *)
Definition LoadInt64 (p : loc) (h : Heap) : Z := cell h p.

(** [atomic.CompareAndSwapInt64]. *)
Definition CompareAndSwapInt64 (p : loc) (old new : Z) (h : Heap) : bool * Heap :=
  if (cell h p =? old)%Z then (true, store_cell p new h) else (false, h).

(** ** Errors *)

(** [ErrNoSuchKey] is the package's no-such-key error; [ErrCacheSize] is the
    error of the cache constructor. *)
Inductive error := ErrNoSuchKey | ErrCacheSize.

#[global] Instance error_eq_dec : EqDecision error.
Proof. solve_decision. Defined.

(** ** The LRU cache *)

Module lru.

(** Modelled from the spec: the cache of github.com/hashicorp/golang-lru
    that mem.go imports is not among the sources.  It is the spec's
    fixed-capacity least-recently-used cache: capacity fixed at
    construction, a construction with a non-positive capacity fails, a
    lookup that hits refreshes the key's recency, and an insertion beyond
    capacity evicts the least-recently-used key.  [evictList] holds the
    entries from the most recently used to the least recently used. *)
Record Cache := mkCache { size : Z; evictList : list (string * loc) }.

(** Modelled from the spec: [lru.New(size)], which fails on an invalid
    (non-positive) capacity. *)
Definition New (sz : Z) : option Cache * option error :=
  if (sz <=? 0)%Z then (None, Some ErrCacheSize)
  else (Some {| size := sz; evictList := [] |}, None).

(** Takes the entry of [key] out of the list. *)
Fixpoint extract (key : string) (l : list (string * loc))
  : option (loc * list (string * loc)) :=
  match l with
  | [] => None
  | (k, p) :: r =>
      if decide (k = key) then Some (p, r)
      else match extract key r with
           | Some (q, r') => Some (q, (k, p) :: r')
           | None => None
           end
  end.

(** Modelled from the spec: [c.Get(key)]; a hit moves the entry to the
    front, a miss leaves the cache as it is. *)
Definition Get (key : string) (c : Cache) : option loc * Cache :=
  match extract key (evictList c) with
  | Some (p, r) => (Some p, {| size := size c; evictList := (key, p) :: r |})
  | None => (None, c)
  end.

(** Modelled from the spec: [c.Add(key, value)]; a key already present is
    refreshed and its value replaced, a new key goes to the front and the
    oldest entry is dropped when the capacity is exceeded. *)
Definition Add (key : string) (value : loc) (c : Cache) : Cache :=
  match extract key (evictList c) with
  | Some (_, r) => {| size := size c; evictList := (key, value) :: r |}
  | None =>
      let l := (key, value) :: evictList c in
      {| size := size c;
         evictList := if (Z.of_nat (length l) >? size c)%Z then removelast l else l |}
  end.

(** The entry of [key], without touching the recency order. *)
Fixpoint peek (key : string) (l : list (string * loc)) : option loc :=
  match l with
  | [] => None
  | (k, p) :: r => if decide (k = key) then Some p else peek key r
  end.

End lru.

(** ** The store *)

(** [keys] is nil in an unbounded store; [m] is nil in a bounded one (a nil
    map reads as the empty map, and it is written only when [keys] is nil,
    that is, in a store whose map [NewMemStore] has made). *)
Record memStore := mkMemStore { keys : option lru.Cache; m : gmap string loc }.

Record World := mkWorld { heap : Heap; ms : memStore }.

Section Construction.

(** The constructor of the cache, [lru.New] in mem.go. *)
Variable newCache : Z → option lru.Cache * option error.

Definition NewMemStore_with (maxKeys : Z) : option memStore * option error :=
  if (maxKeys >? 0)%Z then
    match newCache maxKeys with
    | (_, Some err) => (None, Some err)
    | (c, None) => (Some {| keys := c; m := ∅ |}, None)
    end
  else (Some {| keys := None; m := ∅ |}, None).

End Construction.

Definition NewMemStore : Z → option memStore * option error :=
  NewMemStore_with lru.New.

(** [ms.get(key, locked)]: the pointer is [Some p] when [ok], nil otherwise.
    [locked] only says whether the caller already holds the lock. *)
Definition get (key : string) (locked : bool) (s : memStore) : option loc * memStore :=
  match keys s with
  | Some c =>
      let '(valP, c') := lru.Get key c in
      (valP, {| keys := Some c'; m := m s |})
  | None => (m s !! key, s)
  end.

Definition Get (key : string) (w : World) : (Z * option error) * World :=
  let '(valP, s) := get key false (ms w) in
  match valP with
  | None => ((0%Z, Some ErrNoSuchKey), {| heap := heap w; ms := s |})
  | Some p => ((LoadInt64 p (heap w), None), {| heap := heap w; ms := s |})
  end.

(** The insertion at the end of [SetNX]: into the cache if there is one,
    into the map otherwise. *)
Definition add_entry (key : string) (p : loc) (s : memStore) : memStore :=
  match keys s with
  | Some c => {| keys := Some (lru.Add key p c); m := m s |}
  | None => {| keys := None; m := <[key := p]> (m s) |}
  end.

Definition SetNX (key : string) (value : Z) (w : World) : (bool * option error) * World :=
  let '(valP, s1) := get key false (ms w) in
  match valP with
  | Some _ => ((false, None), {| heap := heap w; ms := s1 |})
  | None =>
      let '(valP', s2) := get key true s1 in
      match valP' with
      | Some _ => ((false, None), {| heap := heap w; ms := s2 |})
      | None =>
          let '(p, h) := alloc value (heap w) in
          ((true, None), {| heap := h; ms := add_entry key p s2 |})
      end
  end.

Definition CompareAndSwap (key : string) (old new : Z) (w : World)
  : (bool * option error) * World :=
  let '(valP, s) := get key false (ms w) in
  match valP with
  | None => ((false, Some ErrNoSuchKey), {| heap := heap w; ms := s |})
  | Some p =>
      let '(swapped, h) := CompareAndSwapInt64 p old new (heap w) in
      ((swapped, None), {| heap := h; ms := s |})
  end.

(** ** Observations used in the statements *)

(** The pointer stored for [key], read without touching the store. *)
Definition entry (s : memStore) (key : string) : option loc :=
  match keys s with
  | Some c => lru.peek key (lru.evictList c)
  | None => m s !! key
  end.

(** The counter of [key], if it has an entry. *)
Definition value_of (w : World) (key : string) : option Z :=
  cell (heap w) <$> entry (ms w) key.

(** Successive [SetNX] calls, one per pair, with their results. *)
Fixpoint insert_all (kvs : list (string * Z)) (w : World)
  : list (bool * option error) * World :=
  match kvs with
  | [] => ([], w)
  | (k, v) :: rest =>
      let '(r, w1) := SetNX k v w in
      let '(rs, w2) := insert_all rest w1 in
      (r :: rs, w2)
  end.

(** Successive [Get] calls, one per key, with their results. *)
Fixpoint get_all (ks : list string) (w : World) : list (Z * option error) * World :=
  match ks with
  | [] => ([], w)
  | k :: rest =>
      let '(r, w1) := Get k w in
      let '(rs, w2) := get_all rest w1 in
      (r :: rs, w2)
  end.

(** Whether [Get] finds the key. *)
Definition retrievable (w : World) (k : string) : bool :=
  match (Get k w).1 with
  | (_, None) => true
  | (_, Some _) => false
  end.

(** What every constructed store satisfies: a cache has room for an entry. *)
Definition store_ok (s : memStore) : Prop :=
  match keys s with
  | Some c => (0 < lru.size c)%Z
  | None => True
  end.

(** The states a store goes through: built by [NewMemStore], then used
    through its three operations. *)
Inductive reachable : World → Prop :=
  | reach_New maxKeys s h :
      NewMemStore maxKeys = (Some s, None) → reachable {| heap := h; ms := s |}
  | reach_Get key w : reachable w → reachable (Get key w).2
  | reach_SetNX key value w : reachable w → reachable (SetNX key value w).2
  | reach_CompareAndSwap key old new w :
      reachable w → reachable (CompareAndSwap key old new w).2.

(** ** Concrete stores *)

Definition heap0 : Heap := {| cell := λ _, 0%Z; brk := 0 |}.

(** The stores [NewMemStore 0] and [NewMemStore 2] return, on an empty heap. *)
Definition unbounded0 : World :=
  {| heap := heap0; ms := {| keys := None; m := ∅ |} |}.

Definition bounded2 : World :=
  {| heap := heap0;
     ms := {| keys := Some {| lru.size := 2; lru.evictList := [] |}; m := ∅ |} |}.

(** [bounded2] after [SetNX("a", 1)] and [SetNX("b", 2)]. *)
Definition bounded2_ab : World :=
  (insert_all [("a", 1%Z); ("b", 2%Z)] bounded2).2.

(** [unbounded0] after [SetNX("a", 1)] and [SetNX("b", 2)]. *)
Definition unbounded_ab : World :=
  (insert_all [("a", 1%Z); ("b", 2%Z)] unbounded0).2.

(** ** Racing [SetNX] calls

    [N] goroutines call [SetNX] on the same key, each with its own value.
    A call is cut into its atomic actions: an operation of the [sync.RWMutex],
    an access to the map made while the mutex is held, or one operation of
    the cache (which serialises its own operations).  A schedule picks the
    goroutine that moves next; a goroutine that is picked while it waits for
    the mutex, or after it has returned, does not move. *)

(** Where a call stands. *)
Inductive PC :=
  | Start                          (* about to call [ms.get(key, false)] *)
  | Reading                        (* map only: read lock held, about to read [ms.m[key]] *)
  | RUnlocking (valP : option loc) (* map only: has read, about to [RUnlock] *)
  | WantLock                       (* about to [ms.Lock()] *)
  | Locked                         (* lock held, about to call [ms.get(key, true)] *)
  | Inserting                      (* lock held, about to take [&v] and insert it *)
  | Unlocking (created : bool)     (* the deferred [ms.Unlock()] *)
  | Done (r : bool * option error) (* has returned [r] *).

#[global] Instance PC_eq_dec : EqDecision PC.
Proof. solve_decision. Defined.

Record Thread := mkThread { pc : PC; value : Z }.

(** [sync.RWMutex]: whether a writer holds it, and how many readers do. *)
Record RWMutex := mkRWMutex { writer : bool; readers : nat }.

Record Config := mkConfig { world : World; mu : RWMutex; threads : list Thread }.

(** After the first [get]: return [false, nil] if the key is there, go for
    the lock otherwise. *)
Definition after_check (valP : option loc) : PC :=
  match valP with
  | Some _ => Done (false, None)
  | None => WantLock
  end.

(** After the second [get], made under the lock: give up if the key is
    there, insert otherwise. *)
Definition after_recheck (valP : option loc) : PC :=
  match valP with
  | Some _ => Unlocking false
  | None => Inserting
  end.

(** One atomic action of a call, or [None] when the call has returned or has
    to wait. *)
Definition thread_step (key : string) (t : Thread) (w : World) (l : RWMutex)
  : option (Thread * World * RWMutex) :=
  match pc t with
  | Start =>
      match keys (ms w) with
      | Some _ =>
          let '(valP, s) := get key false (ms w) in
          Some ({| pc := after_check valP; value := value t |},
                {| heap := heap w; ms := s |}, l)
      | None =>
          if writer l then None
          else Some ({| pc := Reading; value := value t |}, w,
                     {| writer := writer l; readers := S (readers l) |})
      end
  | Reading =>
      let '(valP, s) := get key false (ms w) in
      Some ({| pc := RUnlocking valP; value := value t |},
            {| heap := heap w; ms := s |}, l)
  | RUnlocking valP =>
      Some ({| pc := after_check valP; value := value t |}, w,
            {| writer := writer l; readers := pred (readers l) |})
  | WantLock =>
      if writer l || negb (readers l =? 0) then None
      else Some ({| pc := Locked; value := value t |}, w,
                 {| writer := true; readers := readers l |})
  | Locked =>
      let '(valP, s) := get key true (ms w) in
      Some ({| pc := after_recheck valP; value := value t |},
            {| heap := heap w; ms := s |}, l)
  | Inserting =>
      let '(p, h) := alloc (value t) (heap w) in
      Some ({| pc := Unlocking true; value := value t |},
            {| heap := h; ms := add_entry key p (ms w) |}, l)
  | Unlocking created =>
      Some ({| pc := Done (created, None); value := value t |}, w,
            {| writer := false; readers := readers l |})
  | Done _ => None
  end.

(** Goroutine [i] moves. *)
Definition step (key : string) (i : nat) (c : Config) : option Config :=
  match threads c !! i with
  | Some t =>
      match thread_step key t (world c) (mu c) with
      | Some (t', w, l) =>
          Some {| world := w; mu := l; threads := <[i := t']> (threads c) |}
      | None => None
      end
  | None => None
  end.

Definition run (key : string) (sched : list nat) (c : Config) : Config :=
  foldl (λ c i, default c (step key i c)) c sched.

(** The calls [SetNX(key, v)], one per [v] of [vs], all about to start on a
    store nobody else is using. *)
Definition init (w : World) (vs : list Z) : Config :=
  {| world := w;
     mu := {| writer := false; readers := 0 |};
     threads := (λ v, {| pc := Start; value := v |}) <$> vs |}.

Definition is_done (t : Thread) : bool :=
  match pc t with Done _ => true | _ => false end.

Definition all_done (c : Config) : Prop := Forall (λ t, is_done t = true) (threads c).

(** What call [i] has returned, if it has. *)
Definition returned (c : Config) (i : nat) : option (bool * option error) :=
  match threads c !! i with
  | Some {| pc := Done r |} => Some r
  | _ => None
  end.

(** *** The invariant of a race *)

(** The call holds the write lock. *)
Definition in_crit (p : PC) : nat :=
  match p with Locked | Inserting | Unlocking _ => 1 | _ => 0 end.

(** The call holds a read lock. *)
Definition in_read (p : PC) : nat :=
  match p with Reading | RUnlocking _ => 1 | _ => 0 end.

(** The call has inserted its value. *)
Definition won (p : PC) : nat :=
  match p with Unlocking true | Done (true, _) => 1 | _ => 0 end.

(** The call has found the key in the store. *)
Definition saw (p : PC) : bool :=
  match p with
  | RUnlocking (Some _) | Unlocking false | Done (false, _) => true
  | _ => false
  end.

(** A bound on the atomic actions the call has left. *)
Definition remaining (p : PC) : nat :=
  match p with
  | Start => 7 | Reading => 6 | RUnlocking _ => 5 | WantLock => 4
  | Locked => 3 | Inserting => 2 | Unlocking _ => 1 | Done _ => 0
  end.

Definition thread_ok (key : string) (w : World) (t : Thread) : Prop :=
  (∀ r e, pc t = Done (r, e) → e = None)
  ∧ match entry (ms w) key with
    | None => won (pc t) = 0 ∧ saw (pc t) = false
    | Some p => pc t ≠ Inserting ∧ (won (pc t) = 1 → cell (heap w) p = value t)
    end.

Record Inv (key : string) (vs : list Z) (c : Config) : Prop := mkInv {
  inv_ok : store_ok (ms (world c));
  inv_values : value <$> threads c = vs;
  inv_crit : sum_list_with (in_crit ∘ pc) (threads c) = Nat.b2n (writer (mu c));
  inv_read : sum_list_with (in_read ∘ pc) (threads c) = readers (mu c);
  inv_won :
    sum_list_with (won ∘ pc) (threads c) =
      match entry (ms (world c)) key with Some _ => 1 | None => 0 end;
  inv_threads : Forall (thread_ok key (world c)) (threads c)
}.

(** ** Sequences of calls *)

(** A call of one of the three operations. *)
Inductive Op :=
  | OpGet (key : string)
  | OpSetNX (key : string) (value : Z)
  | OpCompareAndSwap (key : string) (old new : Z).

Definition apply_op (o : Op) (w : World) : World :=
  match o with
  | OpGet key => (Get key w).2
  | OpSetNX key value => (SetNX key value w).2
  | OpCompareAndSwap key old new => (CompareAndSwap key old new w).2
  end.

Definition apply_ops (ops : list Op) (w : World) : World :=
  foldl (λ w o, apply_op o w) w ops.

(** The key a call is about. *)
Definition key_of (o : Op) : string :=
  match o with
  | OpGet key | OpSetNX key _ | OpCompareAndSwap key _ _ => key
  end.

(** The keys the [SetNX] calls of a sequence are about, in order. *)
Fixpoint inserted (ops : list Op) : list string :=
  match ops with
  | [] => []
  | OpSetNX key _ :: rest => key :: inserted rest
  | _ :: rest => inserted rest
  end.

(** How many entries of [l] come before the first [k]. *)
Fixpoint since (k : string) (l : list string) : nat :=
  match l with
  | [] => 0
  | x :: rest => if decide (x = k) then 0 else S (since k rest)
  end.

(** How long ago a sequence of calls last touched [k]: the number of calls
    made after the last call about [k].  The least recently touched key is
    the one of greatest age. *)
Definition age (k : string) (ops : list Op) : nat :=
  since k (reverse (key_of <$> ops)).

(** Whether the call is a [CompareAndSwap] on [k]. *)
Definition cas_on (k : string) (o : Op) : bool :=
  match o with
  | OpCompareAndSwap key _ _ => bool_decide (key = k)
  | _ => false
  end.

(** What a cache satisfies at all times: positive capacity, no more
    entries than its capacity, one entry per key; and the map beside it is
    never written. *)
Definition cache_ok (s : memStore) : Prop :=
  match keys s with
  | Some c =>
      (0 < lru.size c)%Z
      ∧ (Z.of_nat (length (lru.evictList c)) ≤ lru.size c)%Z
      ∧ NoDup (lru.evictList c).*1
      ∧ m s = ∅
  | None => True
  end.

(** The pointers of the store are allocated cells, and no two keys share a
    cell. *)
Definition wf (w : World) : Prop :=
  (∀ k p, entry (ms w) k = Some p → p < brk (heap w))
  ∧ (∀ k1 k2 p, entry (ms w) k1 = Some p → entry (ms w) k2 = Some p → k1 = k2)
  ∧ cache_ok (ms w).

(** *** Invariants of any race *)

(** The mutex agrees with where the calls stand, and is never held by a
    writer and a reader at once. *)
Definition lock_ok (c : Config) : Prop :=
  sum_list_with (in_crit ∘ pc) (threads c) = Nat.b2n (writer (mu c))
  ∧ sum_list_with (in_read ∘ pc) (threads c) = readers (mu c)
  ∧ (writer (mu c) = true → readers (mu c) = 0).

(** Where a call can stand when the key was in the store from the start. *)
Definition lost (p : PC) : bool :=
  match p with
  | Start | Reading | RUnlocking (Some _) | Done (false, None) => true
  | _ => false
  end.

(** The invariant of a race on a key that is in the store [w0]. *)
Definition present_inv (w0 : World) (c : Config) : Prop :=
  heap (world c) = heap w0
  ∧ (∀ k, entry (ms (world c)) k = entry (ms w0) k)
  ∧ writer (mu c) = false
  ∧ Forall (λ t, lost (pc t) = true) (threads c).

(** * Properties *)

(** ** The cache *)

Lemma extract_None key l : lru.extract key l = None ↔ lru.peek key l = None.
Proof.
  induction l as [|[k p] r IH]; simpl; [done|].
  destruct (decide (k = key)); [done|].
  destruct (lru.extract key r) as [[q r']|]; split; intros H; try done.
  - by apply IH in H.
  - by apply IH.
Qed.

Lemma extract_Some key l p r :
  lru.extract key l = Some (p, r) →
  ∃ l1 l2, l = l1 ++ (key, p) :: l2 ∧ r = l1 ++ l2 ∧ lru.peek key l1 = None.
Proof.
  revert p r. induction l as [|[k q] l IH]; simpl; intros p r H; [done|].
  destruct (decide (k = key)) as [->|Hne].
  - injection H as <- <-. by exists [], l.
  - destruct (lru.extract key l) as [[q' r']|] eqn:E; [|done].
    injection H as <- <-.
    destruct (IH _ _ eq_refl) as (l1 & l2 & -> & -> & Hl1).
    exists ((k, q) :: l1), l2. simpl. by rewrite decide_False.
Qed.

Lemma peek_app key l1 l2 :
  lru.peek key (l1 ++ l2) =
  match lru.peek key l1 with Some p => Some p | None => lru.peek key l2 end.
Proof.
  induction l1 as [|[k q] l1 IH]; simpl; [done|]. by destruct (decide (k = key)).
Qed.

Lemma peek_None key l : lru.peek key l = None ↔ key ∉ l.*1.
Proof.
  induction l as [|[k q] l IH]; simpl.
  - split; [intros _; apply not_elem_of_nil | done].
  - rewrite not_elem_of_cons. destruct (decide (k = key)) as [->|Hne].
    + split; [done | by intros []].
    + rewrite IH. split; [by intros H; split | by intros [_ H]].
Qed.

Lemma peek_NoDup key l p : NoDup l.*1 → (key, p) ∈ l → lru.peek key l = Some p.
Proof.
  induction l as [|[k q] l IH]; simpl; intros Hnd Hin.
  - by apply elem_of_nil in Hin.
  - apply NoDup_cons in Hnd as [Hk Hnd].
    apply elem_of_cons in Hin as [[= -> ->]|Hin].
    + by rewrite decide_True.
    + destruct (decide (k = key)) as [->|Hne]; [|by apply IH].
      exfalso. apply Hk. apply list_elem_of_fmap. by exists (key, p).
Qed.

Lemma lru_Get_fst key c : (lru.Get key c).1 = lru.peek key (lru.evictList c).
Proof.
  unfold lru.Get. destruct (lru.extract key (lru.evictList c)) as [[p r]|] eqn:E; simpl.
  - apply extract_Some in E as (l1 & l2 & -> & -> & Hl1).
    rewrite peek_app, Hl1. simpl. by rewrite decide_True.
  - symmetry. by apply extract_None.
Qed.

Lemma lru_Get_peek key c k :
  lru.peek k (lru.evictList (lru.Get key c).2) = lru.peek k (lru.evictList c).
Proof.
  unfold lru.Get. destruct (lru.extract key (lru.evictList c)) as [[p r]|] eqn:E; simpl; [|done].
  apply extract_Some in E as (l1 & l2 & -> & -> & Hl1).
  rewrite !peek_app. simpl. destruct (decide (key = k)) as [<-|Hne].
  - by rewrite Hl1.
  - done.
Qed.

Lemma lru_Get_size key c : lru.size (lru.Get key c).2 = lru.size c.
Proof.
  unfold lru.Get. by destruct (lru.extract key (lru.evictList c)) as [[p r]|].
Qed.

Lemma lru_Get_miss key c :
  lru.peek key (lru.evictList c) = None → lru.Get key c = (None, c).
Proof.
  intros H. apply extract_None in H. unfold lru.Get. by rewrite H.
Qed.

(** ** [get] *)

Lemma get_fst key b s : (get key b s).1 = entry s key.
Proof.
  unfold get, entry. destruct (keys s) as [c|]; [|done].
  rewrite <- lru_Get_fst. destruct (lru.Get key c) as [v c']. reflexivity.
Qed.

Lemma get_entry key b s k : entry (get key b s).2 k = entry s k.
Proof.
  unfold get, entry. destruct (keys s) as [c|] eqn:E; simpl; [|by rewrite E].
  pose proof (lru_Get_peek key c k) as H. destruct (lru.Get key c). exact H.
Qed.

Lemma get_m key b s : m (get key b s).2 = m s.
Proof.
  unfold get. destruct (keys s) as [c|]; [|done]. by destruct (lru.Get key c).
Qed.

Lemma get_unbounded key b s : keys s = None → get key b s = (m s !! key, s).
Proof. intros H. unfold get. by rewrite H. Qed.

Lemma get_miss key b s : entry s key = None → get key b s = (None, s).
Proof.
  unfold get, entry. destruct s as [[c|] mm]; simpl; intros H.
  - by rewrite lru_Get_miss.
  - by rewrite H.
Qed.

Lemma get_hit key b s p :
  entry s key = Some p → ∃ s', get key b s = (Some p, s') ∧ ∀ k, entry s' k = entry s k.
Proof.
  intros H. exists (get key b s).2. split.
  - rewrite <- H, <- (get_fst key b s). by destruct (get key b s).
  - intros k. apply get_entry.
Qed.

(** ** [Get] *)

Lemma value_of_None w key : value_of w key = None ↔ entry (ms w) key = None.
Proof. unfold value_of. by destruct (entry (ms w) key). Qed.

Lemma value_of_Some w key v :
  value_of w key = Some v ↔ ∃ p, entry (ms w) key = Some p ∧ cell (heap w) p = v.
Proof.
  unfold value_of. destruct (entry (ms w) key) as [p|]; simpl; split.
  - intros [= <-]. by exists p.
  - by intros (q & [= <-] & <-).
  - done.
  - by intros (q & ? & _).
Qed.

Lemma Get_miss w key :
  entry (ms w) key = None → Get key w = ((0%Z, Some ErrNoSuchKey), w).
Proof.
  intros H. unfold Get. rewrite (get_miss _ _ _ H). by destruct w.
Qed.

Lemma Get_hit w key p :
  entry (ms w) key = Some p →
  ∃ s', Get key w = ((cell (heap w) p, None), {| heap := heap w; ms := s' |})
        ∧ m s' = m (ms w) ∧ ∀ k, entry s' k = entry (ms w) k.
Proof.
  intros H. unfold Get.
  pose proof (get_m key false (ms w)) as Hm.
  destruct (get_hit key false _ _ H) as (s' & Hget & Hs').
  rewrite Hget in *. exists s'. split; [reflexivity|]. split; [exact Hm | exact Hs'].
Qed.

(** C5.  [Get] on a key without an entry (never set, or evicted) returns the
    no-such-key error and leaves the store as it is; on a key with an entry
    it returns the entry's current value with a nil error, and afterwards
    every key still has the value it had. *)
Theorem Get_value_or_NotFound (w : World) (key : string) :
  (value_of w key = None → Get key w = ((0%Z, Some ErrNoSuchKey), w))
  ∧ (∀ v, value_of w key = Some v →
       ∃ w', Get key w = ((v, None), w')
             ∧ heap w' = heap w
             ∧ ∀ k, value_of w' k = value_of w k).
Proof.
  split.
  - intros H. apply Get_miss. by apply value_of_None.
  - intros v (p & Hp & <-)%value_of_Some.
    destruct (Get_hit _ _ _ Hp) as (s' & -> & _ & Hs').
    eexists; split; [done|]. split; [done|].
    intros k. unfold value_of; simpl. by rewrite Hs'.
Qed.

Lemma Get_value_or_NotFound_witness :
  value_of bounded2_ab "c" = None
  ∧ Get "c" bounded2_ab = ((0%Z, Some ErrNoSuchKey), bounded2_ab)
  ∧ value_of bounded2_ab "a" = Some 1%Z
  ∧ ∃ w', Get "a" bounded2_ab = ((1%Z, None), w')
          ∧ heap w' = heap bounded2_ab
          ∧ ∀ k, value_of w' k = value_of bounded2_ab k.
Proof.
  split; [reflexivity|].
  split; [apply (Get_value_or_NotFound bounded2_ab "c"); reflexivity|].
  split; [reflexivity|].
  apply (Get_value_or_NotFound bounded2_ab "a"); reflexivity.
Defined.

(** ** [CompareAndSwap] *)

Lemma CompareAndSwap_hit w key old new p :
  entry (ms w) key = Some p →
  ∃ s',
    CompareAndSwap key old new w =
      (((cell (heap w) p =? old)%Z, None),
       {| heap := if (cell (heap w) p =? old)%Z
                  then store_cell p new (heap w) else heap w;
          ms := s' |})
    ∧ ∀ k, entry s' k = entry (ms w) k.
Proof.
  intros Hp. destruct (get_hit key false _ _ Hp) as (s' & Hget & Hs').
  exists s'. split; [|done].
  unfold CompareAndSwap, CompareAndSwapInt64. rewrite Hget.
  by destruct (cell (heap w) p =? old)%Z.
Qed.

Lemma CompareAndSwap_absent w key old new :
  entry (ms w) key = None →
  CompareAndSwap key old new w = ((false, Some ErrNoSuchKey), w).
Proof.
  intros H. unfold CompareAndSwap. rewrite (get_miss _ _ _ H). by destruct w.
Qed.

(** C2.  On a key that has an entry, [CompareAndSwap] returns a nil error,
    swaps exactly when the value just before the call equals [old], leaves
    [new] as the value when it swaps and the old value when it does not. *)
Theorem CompareAndSwap_exact (w : World) (key : string) (old new v : Z) :
  value_of w key = Some v →
  ∃ swapped w',
    CompareAndSwap key old new w = ((swapped, None), w')
    ∧ (swapped = true ↔ v = old)
    ∧ (swapped = true → value_of w' key = Some new)
    ∧ (swapped = false → value_of w' key = Some v)
    ∧ (Get key w').1 = (if swapped then new else v, None).
Proof.
  intros (p & Hp & <-)%value_of_Some.
  destruct (CompareAndSwap_hit w key old new p Hp) as (s' & -> & Hs').
  assert (∀ h, value_of {| heap := h; ms := s' |} key = Some (cell h p)) as Hv.
  { intros h. unfold value_of; simpl. by rewrite Hs', Hp. }
  assert (∀ h, (Get key {| heap := h; ms := s' |}).1 = (cell h p, None)) as HG.
  { intros h. destruct (Get_hit {| heap := h; ms := s' |} key p) as (s2 & -> & _).
    - simpl. by rewrite Hs'.
    - done. }
  eexists _, _. split; [done|]. rewrite Hv, HG.
  destruct (Z.eqb_spec (cell (heap w) p) old) as [Heq|Hne]; simpl.
  - rewrite decide_True by done. by repeat split.
  - by repeat split.
Qed.

Lemma CompareAndSwap_exact_witness :
  value_of unbounded_ab "b" = Some 2%Z
  ∧ ∃ swapped w',
      CompareAndSwap "b" 2 5 unbounded_ab = ((swapped, None), w')
      ∧ (swapped = true ↔ 2%Z = 2%Z)
      ∧ (swapped = true → value_of w' "b" = Some 5%Z)
      ∧ (swapped = false → value_of w' "b" = Some 2%Z)
      ∧ (Get "b" w').1 = (if swapped then 5%Z else 2%Z, None).
Proof.
  split; [vm_compute; reflexivity|].
  apply (CompareAndSwap_exact unbounded_ab "b" 2 5 2). vm_compute; reflexivity.
Defined.

(** C4.  On a key without an entry, [CompareAndSwap] fails with the
    no-such-key error (and changes nothing); this differs from the result on
    a key whose value is not [old], which is [(false, nil)]. *)
Theorem CompareAndSwap_NotFound (w : World) (key : string) (old new : Z) :
  value_of w key = None →
  CompareAndSwap key old new w = ((false, Some ErrNoSuchKey), w)
  ∧ (∀ w2 v, value_of w2 key = Some v → v ≠ old →
       (CompareAndSwap key old new w2).1 = (false, None)
       ∧ (CompareAndSwap key old new w2).1 ≠ (CompareAndSwap key old new w).1).
Proof.
  intros H%value_of_None. rewrite (CompareAndSwap_absent _ _ _ _ H).
  split; [done|]. intros w2 v (p & Hp & <-)%value_of_Some Hne.
  destruct (CompareAndSwap_hit w2 key old new p Hp) as (s' & -> & _). simpl.
  by destruct (Z.eqb_spec (cell (heap w2) p) old).
Qed.

Lemma CompareAndSwap_NotFound_witness :
  value_of bounded2_ab "c" = None
  ∧ CompareAndSwap "c" 0 1 bounded2_ab = ((false, Some ErrNoSuchKey), bounded2_ab).
Proof.
  split; [reflexivity|].
  apply (CompareAndSwap_NotFound bounded2_ab "c" 0 1). reflexivity.
Defined.

(** C3 (as amended).  On a store where ["missing"] has no entry,
    [CompareAndSwap("missing", 0, 1)] returns [false] together with the
    no-such-key error, and changes nothing. *)
Theorem CompareAndSwap_missing (w : World) :
  value_of w "missing" = None →
  CompareAndSwap "missing" 0 1 w = ((false, Some ErrNoSuchKey), w).
Proof. intros H%value_of_None. by apply CompareAndSwap_absent. Qed.

Lemma CompareAndSwap_missing_witness :
  value_of unbounded0 "missing" = None
  ∧ CompareAndSwap "missing" 0 1 unbounded0 = ((false, Some ErrNoSuchKey), unbounded0).
Proof.
  split; [reflexivity|].
  apply (CompareAndSwap_missing unbounded0). reflexivity.
Defined.

(** Not [(false, nil)]: on the store [NewMemStore(0)] has just returned,
    where ["missing"] was never set, the call returns the no-such-key
    error. *)
Lemma CompareAndSwap_missing_not_nil :
  NewMemStore 0 = (Some (ms unbounded0), None)
  ∧ value_of unbounded0 "missing" = None
  ∧ (CompareAndSwap "missing" 0 1 unbounded0).1 = (false, Some ErrNoSuchKey)
  ∧ (CompareAndSwap "missing" 0 1 unbounded0).1 ≠ (false, None).
Proof. repeat split; try reflexivity. discriminate. Qed.

(** ** [NewMemStore] *)

Lemma NewMemStore_bounded maxKeys :
  (0 < maxKeys)%Z →
  NewMemStore maxKeys =
    (Some {| keys := Some {| lru.size := maxKeys; lru.evictList := [] |}; m := ∅ |},
     None).
Proof.
  intros H. unfold NewMemStore, NewMemStore_with, lru.New.
  destruct (Z.gtb_spec maxKeys 0); [|lia].
  by destruct (Z.leb_spec maxKeys 0); [lia|].
Qed.

Lemma NewMemStore_unbounded maxKeys :
  (maxKeys ≤ 0)%Z → NewMemStore maxKeys = (Some {| keys := None; m := ∅ |}, None).
Proof.
  intros H. unfold NewMemStore, NewMemStore_with.
  by destruct (Z.gtb_spec maxKeys 0); [lia|].
Qed.

(** C10.  [NewMemStore] returns a store and a nil error for every
    [maxKeys], zero and negative ones included. *)
Theorem NewMemStore_never_fails (maxKeys : Z) :
  ∃ s, NewMemStore maxKeys = (Some s, None).
Proof.
  destruct (Z.lt_ge_cases 0 maxKeys) as [H|H].
  - eexists. by apply NewMemStore_bounded.
  - eexists. by apply NewMemStore_unbounded.
Qed.




(** The error branch of [NewMemStore] passes on what the cache constructor
    returns; with [lru.New] and a positive [maxKeys] it is never taken. *)
Lemma NewMemStore_with_error newCache maxKeys err :
  (0 < maxKeys)%Z → (newCache maxKeys).2 = Some err →
  NewMemStore_with newCache maxKeys = (None, Some err).
Proof.
  intros H Herr. unfold NewMemStore_with.
  destruct (Z.gtb_spec maxKeys 0); [|lia].
  destruct (newCache maxKeys) as [c e]. simpl in Herr. by subst e.
Qed.

Lemma NewMemStore_ok maxKeys s : NewMemStore maxKeys = (Some s, None) → store_ok s.
Proof.
  destruct (Z.lt_ge_cases 0 maxKeys) as [H|H].
  - rewrite (NewMemStore_bounded _ H). intros [= <-]. exact H.
  - rewrite (NewMemStore_unbounded _ H). by intros [= <-].
Qed.

(** ** [SetNX] *)

Lemma SetNX_absent w key value :
  entry (ms w) key = None →
  SetNX key value w =
    ((true, None),
     {| heap := (alloc value (heap w)).2; ms := add_entry key (brk (heap w)) (ms w) |}).
Proof.
  intros H. unfold SetNX. by rewrite !(get_miss _ _ _ H).
Qed.

Lemma SetNX_present w key value p :
  entry (ms w) key = Some p →
  SetNX key value w =
    ((false, None), {| heap := heap w; ms := (get key false (ms w)).2 |}).
Proof.
  intros H. unfold SetNX.
  by destruct (get_hit key false _ _ H) as (s' & -> & _).
Qed.

Lemma entry_add_entry s key p :
  store_ok s → entry s key = None → entry (add_entry key p s) key = Some p.
Proof.
  unfold store_ok, entry, add_entry. destruct (keys s) as [c|]; simpl.
  - intros Hok H. unfold lru.Add. apply extract_None in H as ->. simpl.
    destruct (lru.evictList c) as [|e l].
    + simpl. destruct (Z.gtb_spec (Z.of_nat 1) (lru.size c)); [lia|].
      simpl. by rewrite decide_True.
    + destruct (_ >? _)%Z; simpl; by rewrite decide_True.
  - intros _ _. apply lookup_insert_eq.
Qed.

Lemma add_entry_ok key p s : store_ok s → store_ok (add_entry key p s).
Proof.
  unfold store_ok, add_entry. destruct (keys s) as [c|]; simpl; [|done].
  unfold lru.Add. by destruct (lru.extract _ _) as [[??]|].
Qed.

Lemma get_ok key b s : store_ok s → store_ok (get key b s).2.
Proof.
  unfold store_ok, get. destruct (keys s) as [c|] eqn:E; simpl; [|by rewrite E].
  pose proof (lru_Get_size key c). destruct (lru.Get key c); simpl in *. lia.
Qed.

Lemma SetNX_ok key value w : store_ok (ms w) → store_ok (ms (SetNX key value w).2).
Proof.
  intros Hok. destruct (entry (ms w) key) as [p|] eqn:E.
  - rewrite (SetNX_present _ _ _ _ E). simpl. by apply get_ok.
  - rewrite (SetNX_absent _ _ _ E). simpl. by apply add_entry_ok.
Qed.

Lemma Get_ok key w : store_ok (ms w) → store_ok (ms (Get key w).2).
Proof.
  intros Hok. unfold Get. pose proof (get_ok key false _ Hok) as H.
  by destruct (get key false (ms w)) as [[p|] s].
Qed.

Lemma CompareAndSwap_ok key old new w :
  store_ok (ms w) → store_ok (ms (CompareAndSwap key old new w).2).
Proof.
  intros Hok. unfold CompareAndSwap. pose proof (get_ok key false _ Hok) as H.
  destruct (get key false (ms w)) as [[p|] s]; [|done].
  by destruct (CompareAndSwapInt64 p old new (heap w)).
Qed.

Lemma reachable_ok w : reachable w → store_ok (ms w).
Proof.
  induction 1 as [maxKeys s h Hnew| | |]; simpl.
  - by apply (NewMemStore_ok maxKeys).
  - by apply Get_ok.
  - by apply SetNX_ok.
  - by apply CompareAndSwap_ok.
Qed.

(** C1 (as amended).  [SetNX] never returns an error.  It returns [true]
    exactly when the key has no entry, and then [value] is the key's
    counter.  When the key has an entry it returns [false]; the heap, the
    map and every key's entry are as before; an unbounded store is left
    unchanged as a whole, and in a bounded store the one change is that the
    key's entry has moved to the front of the recency order. *)
Theorem SetNX_creates_iff_absent (w : World) (key : string) (value : Z) :
  store_ok (ms w) →
  ∃ created w',
    SetNX key value w = ((created, None), w')
    ∧ (created = true ↔ value_of w key = None)
    ∧ (created = true → value_of w' key = Some value)
    ∧ (created = false →
         heap w' = heap w
         ∧ m (ms w') = m (ms w)
         ∧ (∀ k, entry (ms w') k = entry (ms w) k)
         ∧ match keys (ms w) with
           | None => w' = w
           | Some c =>
               ∃ p l1 l2,
                 lru.evictList c = l1 ++ (key, p) :: l2
                 ∧ (key ∉ l1.*1)
                 ∧ keys (ms w') =
                     Some {| lru.size := lru.size c;
                             lru.evictList := (key, p) :: l1 ++ l2 |}
           end).
Proof.
  intros Hok. destruct (entry (ms w) key) as [p|] eqn:E.
  - exists false. eexists. split; [by apply (SetNX_present _ _ _ p)|].
    split; [split; [done | by rewrite value_of_None, E]|].
    split; [done|]. intros _. simpl.
    split; [done|]. split; [apply get_m|]. split; [intros k; apply get_entry|].
    unfold entry, get in *. destruct w as [h [[c|] mm]]; simpl in *; [|done].
    unfold lru.Get. destruct (lru.extract key (lru.evictList c)) as [[q r]|] eqn:Ex.
    + apply extract_Some in Ex as (l1 & l2 & Hl & -> & Hl1).
      exists q, l1, l2. split; [done|]. split; [by apply peek_None|done].
    + apply extract_None in Ex. congruence.
  - exists true. eexists. split; [by apply SetNX_absent|].
    split; [by rewrite value_of_None|]. split; [|done]. intros _.
    unfold value_of; simpl. rewrite entry_add_entry by done. simpl.
    by rewrite decide_True.
Qed.

Lemma SetNX_creates_iff_absent_witness :
  store_ok (ms bounded2_ab)
  ∧ ∃ created w',
      SetNX "a" 9 bounded2_ab = ((created, None), w')
      ∧ (created = true ↔ value_of bounded2_ab "a" = None)
      ∧ (created = true → value_of w' "a" = Some 9%Z)
      ∧ (created = false →
           heap w' = heap bounded2_ab
           ∧ m (ms w') = m (ms bounded2_ab)
           ∧ (∀ k, entry (ms w') k = entry (ms bounded2_ab) k)
           ∧ match keys (ms bounded2_ab) with
             | None => w' = bounded2_ab
             | Some c =>
                 ∃ p l1 l2,
                   lru.evictList c = l1 ++ (("a" : string), p) :: l2
                   ∧ (("a" : string) ∉ l1.*1)
                   ∧ keys (ms w') =
                       Some {| lru.size := lru.size c;
                               lru.evictList := ("a", p) :: l1 ++ l2 |}
             end).
Proof.
  split; [reflexivity|].
  apply (SetNX_creates_iff_absent bounded2_ab "a" 9). reflexivity.
Defined.

(** A bounded store is not left unchanged by a [SetNX] on a key it holds:
    [bounded2_ab] is [NewMemStore(2)] after [SetNX("a", 1)] and
    [SetNX("b", 2)].  There [SetNX("a", 9)] returns [(false, nil)] and the
    store is not what it was: a later [SetNX("c", 3)] now evicts ["b"] where
    it would have evicted ["a"]. *)
Lemma SetNX_existing_refreshes_recency :
  NewMemStore 2 = (Some (ms bounded2), None)
  ∧ value_of bounded2_ab "a" = Some 1%Z
  ∧ (SetNX "a" 9 bounded2_ab).1 = (false, None)
  ∧ (SetNX "a" 9 bounded2_ab).2 ≠ bounded2_ab
  ∧ (Get "a" (SetNX "c" 3 bounded2_ab).2).1 = (0%Z, Some ErrNoSuchKey)
  ∧ (Get "a" (SetNX "c" 3 (SetNX "a" 9 bounded2_ab).2).2).1 = (1%Z, None).
Proof.
  repeat split.
  intros H. apply (f_equal (λ w, lru.evictList <$> keys (ms w))) in H.
  vm_compute in H. discriminate.
Qed.

(** ** Runs of [SetNX] and [Get] *)

Lemma get_all_values ks w :
  (get_all ks w).1 =
    (λ k, match value_of w k with
          | Some v => (v, None)
          | None => (0%Z, Some ErrNoSuchKey)
          end) <$> ks.
Proof.
  revert w. induction ks as [|k ks IH]; intros w; simpl; [done|].
  destruct (entry (ms w) k) as [p|] eqn:E.
  - destruct (Get_hit _ _ _ E) as (s' & -> & _ & Hs').
    specialize (IH {| heap := heap w; ms := s' |}).
    destruct (get_all ks _) as [rs w2]. simpl in *. rewrite IH.
    unfold value_of at 2. rewrite E. simpl. f_equal.
    apply list_fmap_ext. intros _ k' _. unfold value_of; simpl. by rewrite Hs'.
  - rewrite (Get_miss _ _ E). specialize (IH w).
    destruct (get_all ks w) as [rs w2]. simpl in *. rewrite IH.
    unfold value_of at 2. by rewrite E.
Qed.

Lemma take_app_take {A} n (l1 l2 : list A) :
  take n (l1 ++ take n l2) = take n (l1 ++ l2).
Proof.
  rewrite !take_app, take_take. do 2 f_equal. lia.
Qed.

Lemma lru_Add_fresh key p c :
  lru.peek key (lru.evictList c) = None →
  (Z.of_nat (length (lru.evictList c)) ≤ lru.size c)%Z →
  lru.Add key p c =
    {| lru.size := lru.size c;
       lru.evictList := take (Z.to_nat (lru.size c)) ((key, p) :: lru.evictList c) |}.
Proof.
  intros H Hlen. unfold lru.Add. apply extract_None in H as ->. f_equal.
  set (l := (key, p) :: lru.evictList c).
  assert (length l = S (length (lru.evictList c))) as Hl by done.
  destruct (Z.gtb_spec (Z.of_nat (length l)) (lru.size c)).
  - rewrite removelast_firstn_len. f_equal. lia.
  - symmetry. apply take_ge. lia.
Qed.

Lemma insert_all_unbounded kvs w :
  keys (ms w) = None →
  NoDup kvs.*1 →
  (∀ k, k ∈ kvs.*1 → m (ms w) !! k = None) →
  ∃ w',
    insert_all kvs w = (replicate (length kvs) (true, None), w')
    ∧ keys (ms w') = None
    ∧ brk (heap w) ≤ brk (heap w')
    ∧ (∀ q, q < brk (heap w) → cell (heap w') q = cell (heap w) q)
    ∧ (∀ k v, (k, v) ∈ kvs →
         ∃ p, m (ms w') !! k = Some p ∧ brk (heap w) ≤ p ∧ cell (heap w') p = v)
    ∧ (∀ k, k ∉ kvs.*1 → m (ms w') !! k = m (ms w) !! k).
Proof.
  revert w. induction kvs as [|[k v] rest IH]; intros w Hk Hnd Hfresh.
  - exists w. simpl. repeat split; try done.
    intros k v Hin. by apply elem_of_nil in Hin.
  - simpl in Hnd. apply NoDup_cons in Hnd as [Hk_rest Hnd].
    assert (entry (ms w) k = None) as Habs.
    { unfold entry. rewrite Hk. apply Hfresh. simpl. apply list_elem_of_here. }
    simpl. rewrite (SetNX_absent _ _ _ Habs).
    set (w1 := {| heap := (alloc v (heap w)).2; ms := add_entry k (brk (heap w)) (ms w) |}).
    assert (ms w1 = {| keys := None; m := <[k := brk (heap w)]> (m (ms w)) |}) as Hms1.
    { unfold w1, add_entry. simpl. by rewrite Hk. }
    destruct (IH w1) as (w' & Hrun & Hk' & Hbrk & Hcell & Hin & Hout).
    { by rewrite Hms1. }
    { done. }
    { intros k' Hk'. rewrite Hms1. simpl. rewrite lookup_insert_ne.
      - apply Hfresh. simpl. by apply list_elem_of_further.
      - intros ->. by apply Hk_rest. }
    rewrite Hrun. exists w'. split; [done|]. split; [done|].
    simpl in Hbrk, Hcell. split; [lia|]. split.
    { intros q Hq. rewrite Hcell by lia. simpl. rewrite decide_False by lia. done. }
    split.
    + intros k' v' [[= -> ->]|Hin']%elem_of_cons.
      * exists (brk (heap w)). rewrite (Hout _ Hk_rest), Hms1. simpl.
        rewrite lookup_insert_eq. split; [done|]. split; [done|].
        rewrite Hcell by lia. simpl. by rewrite decide_True.
      * destruct (Hin _ _ Hin') as (p & Hp & Hge & Hv).
        exists p. split; [done|]. split; [simpl in Hge; lia | done].
    + intros k' Hk'n. simpl in Hk'n. apply not_elem_of_cons in Hk'n as [Hne Hk'n].
      rewrite (Hout _ Hk'n), Hms1. simpl. by rewrite lookup_insert_ne.
Qed.

(** C7.  With [maxKeys <= 0] the store is unbounded: after any number of
    distinct keys have been inserted with [SetNX] (each call reporting
    [true]), every one of them is retrievable with [Get], which returns the
    value inserted and leaves the store as it is. *)
Theorem unbounded_never_evicts (maxKeys : Z) (h : Heap) (kvs : list (string * Z)) :
  (maxKeys ≤ 0)%Z →
  NoDup kvs.*1 →
  ∃ s w',
    NewMemStore maxKeys = (Some s, None)
    ∧ insert_all kvs {| heap := h; ms := s |} = (replicate (length kvs) (true, None), w')
    ∧ (∀ k v, (k, v) ∈ kvs → Get k w' = ((v, None), w'))
    ∧ (get_all kvs.*1 w').1 = (λ v, (v, None)) <$> kvs.*2.
Proof.
  intros Hle Hnd. eexists. rewrite (NewMemStore_unbounded _ Hle).
  destruct (insert_all_unbounded kvs {| heap := h; ms := {| keys := None; m := ∅ |} |})
    as (w' & Hrun & Hk & _ & _ & Hin & _); [done..|].
  exists w'. split; [done|]. split; [done|].
  assert (∀ k v, (k, v) ∈ kvs → value_of w' k = Some v) as Hval.
  { intros k v (p & Hp & _ & Hv)%Hin. apply value_of_Some. exists p.
    unfold entry. by rewrite Hk. }
  split.
  - intros k v (p & Hp & _ & <-)%Hin. unfold Get.
    rewrite (get_unbounded _ _ _ Hk), Hp. by destruct w'.
  - rewrite get_all_values. rewrite <- !list_fmap_compose.
    apply list_fmap_ext. intros _ [k v] Hkv%list_elem_of_lookup_2. simpl.
    by rewrite (Hval _ _ Hkv).
Qed.

Lemma unbounded_never_evicts_witness :
  (-1 ≤ 0)%Z
  ∧ NoDup [("a", 1%Z); ("b", 2%Z); ("c", 3%Z)].*1
  ∧ ∃ s w',
      NewMemStore (-1) = (Some s, None)
      ∧ insert_all [("a", 1%Z); ("b", 2%Z); ("c", 3%Z)] {| heap := heap0; ms := s |}
        = (replicate 3 (true, None), w')
      ∧ (∀ k v, (k, v) ∈ [("a", 1%Z); ("b", 2%Z); ("c", 3%Z)] →
           Get k w' = ((v, None), w'))
      ∧ (get_all [("a", 1%Z); ("b", 2%Z); ("c", 3%Z)].*1 w').1
        = (λ v, (v, None)) <$> [("a", 1%Z); ("b", 2%Z); ("c", 3%Z)].*2.
Proof.
  assert (NoDup [("a", 1%Z); ("b", 2%Z); ("c", 3%Z)].*1) as Hnd.
  { apply (bool_decide_unpack (NoDup _)). vm_compute. exact I. }
  split; [lia|]. split; [exact Hnd|].
  apply (unbounded_never_evicts (-1) heap0 [("a", 1%Z); ("b", 2%Z); ("c", 3%Z)]);
    [lia | exact Hnd].
Defined.

Lemma peek_take_None key n l : lru.peek key l = None → lru.peek key (take n l) = None.
Proof.
  intros H. rewrite <- (take_drop n l), peek_app in H.
  by destruct (lru.peek key (take n l)).
Qed.

Lemma insert_all_bounded kvs w c :
  keys (ms w) = Some c →
  (Z.of_nat (length (lru.evictList c)) ≤ lru.size c)%Z →
  NoDup kvs.*1 →
  (∀ k, k ∈ kvs.*1 → lru.peek k (lru.evictList c) = None) →
  ∃ w' es,
    insert_all kvs w = (replicate (length kvs) (true, None), w')
    ∧ keys (ms w') =
        Some {| lru.size := lru.size c;
                lru.evictList :=
                  take (Z.to_nat (lru.size c)) (reverse es ++ lru.evictList c) |}
    ∧ brk (heap w) ≤ brk (heap w')
    ∧ (∀ q, q < brk (heap w) → cell (heap w') q = cell (heap w) q)
    ∧ Forall2 (λ e kv, e.1 = kv.1 ∧ cell (heap w') e.2 = kv.2) es kvs.
Proof.
  revert w c. induction kvs as [|[k v] rest IH]; intros w c Hk Hlen Hnd Hfresh.
  - exists w, []. simpl. split; [done|]. split.
    { rewrite Hk. destruct c as [sz l]. simpl in *. do 2 f_equal.
      symmetry. apply take_ge. lia. }
    by repeat split.
  - simpl in Hnd. apply NoDup_cons in Hnd as [Hk_rest Hnd].
    assert (lru.peek k (lru.evictList c) = None) as Hpk.
    { apply Hfresh. simpl. apply list_elem_of_here. }
    assert (entry (ms w) k = None) as Habs.
    { unfold entry. by rewrite Hk. }
    simpl. rewrite (SetNX_absent _ _ _ Habs).
    set (b := brk (heap w)).
    set (w1 := {| heap := (alloc v (heap w)).2; ms := add_entry k b (ms w) |}).
    set (c1 := {| lru.size := lru.size c;
                  lru.evictList :=
                    take (Z.to_nat (lru.size c)) ((k, b) :: lru.evictList c) |}).
    assert (keys (ms w1) = Some c1) as Hk1.
    { unfold w1, add_entry. simpl. rewrite Hk. simpl. by rewrite lru_Add_fresh. }
    destruct (IH w1 c1) as (w' & es & Hrun & Hk' & Hbrk & Hcell & Hes).
    { done. }
    { simpl. rewrite length_take. lia. }
    { done. }
    { intros k' Hk'. simpl. apply peek_take_None. simpl.
      rewrite decide_False.
      - apply Hfresh. simpl. by apply list_elem_of_further.
      - intros ->. by apply Hk_rest. }
    rewrite Hrun. exists w', ((k, b) :: es). split; [done|].
    simpl in Hbrk, Hcell, Hk'. split.
    { rewrite Hk'. do 2 f_equal. rewrite take_app_take, reverse_cons.
      by rewrite <- app_assoc. }
    split; [fold b in Hbrk; lia|]. split.
    { intros q Hq. fold b in Hcell. rewrite Hcell by lia. by rewrite decide_False by lia. }
    apply Forall2_cons. split; [|done]. simpl. split; [done|].
    fold b in Hcell. rewrite Hcell by lia. by rewrite decide_True.
Qed.

Lemma Forall2_fst_eq {A B} (es : list (string * A)) (kvs : list (string * B)) P :
  Forall2 (λ e kv, e.1 = kv.1 ∧ P e kv) es kvs → es.*1 = kvs.*1.
Proof.
  induction 1 as [|e kv es kvs [He _] _ IH]; [done|].
  rewrite !fmap_cons. by f_equal.
Qed.

Lemma filter_all_true {A} (f : A → bool) (l : list A) :
  Forall (λ x, f x = true) l → List.filter f l = l.
Proof.
  induction 1 as [|x l Hx _ IH]; simpl; [done|]. by rewrite Hx, IH.
Qed.

(** Insertions alone.  A store built with a positive capacity [K], after
    [K+1] distinct keys have been inserted with [SetNX] and no other call
    made (each call reporting [true]):
    [Get] retrieves exactly [K] of them, the [K] inserted last, each with
    the value inserted; the first key, the least recently touched one, is
    gone.  A key that is gone and a key that was never set behave alike:
    [Get] returns the no-such-key error and [SetNX] creates the entry. *)
Theorem bounded_evicts_least_recent
    (K : Z) (h : Heap) (k0 : string) (v0 : Z) (rest : list (string * Z)) :
  (0 < K)%Z →
  Z.of_nat (length rest) = K →
  NoDup (k0 :: rest.*1) →
  ∃ s w',
    NewMemStore K = (Some s, None)
    ∧ insert_all ((k0, v0) :: rest) {| heap := h; ms := s |}
      = (replicate (S (length rest)) (true, None), w')
    ∧ Z.of_nat (length (List.filter (retrievable w') (k0 :: rest.*1))) = K
    ∧ (∀ k, retrievable w' k = true ↔ k ∈ rest.*1)
    ∧ (∀ k v, (k, v) ∈ rest → (Get k w').1 = (v, None))
    ∧ (get_all rest.*1 w').1 = (λ v, (v, None)) <$> rest.*2
    ∧ Get k0 w' = ((0%Z, Some ErrNoSuchKey), w')
    ∧ (∀ k v, k ∉ rest.*1 →
         Get k w' = ((0%Z, Some ErrNoSuchKey), w')
         ∧ (∀ old new, CompareAndSwap k old new w' = ((false, Some ErrNoSuchKey), w'))
         ∧ ∃ w'', SetNX k v w' = ((true, None), w'') ∧ (Get k w'').1 = (v, None)).
Proof.
  intros HK Hlen Hnd. eexists. rewrite (NewMemStore_bounded _ HK).
  set (c := {| lru.size := K; lru.evictList := [] |}).
  destruct (insert_all_bounded ((k0, v0) :: rest)
              {| heap := h; ms := {| keys := Some c; m := ∅ |} |} c)
    as (w' & es & Hrun & Hk & _ & _ & Hes); [done | simpl; lia | done | done |].
  exists w'. split; [done|]. split; [done|].
  apply Forall2_cons_inv_r in Hes as (e0 & es' & _ & Hes & ->).
  pose proof (NoDup_cons_1_1 _ _ Hnd) as Hk0. pose proof (NoDup_cons_1_2 _ _ Hnd) as Hnd'.
  pose proof (Forall2_fst_eq _ _ _ Hes) as Hfst.
  pose proof (Forall2_length _ _ _ Hes) as Hlen'.
  assert (keys (ms w') = Some {| lru.size := K; lru.evictList := reverse es' |}) as Hk'.
  { rewrite Hk. simpl. do 2 f_equal. rewrite app_nil_r, reverse_cons.
    apply take_app_length'. rewrite length_reverse. lia. }
  assert (∀ k, entry (ms w') k = lru.peek k (reverse es')) as Hentry.
  { intros k. unfold entry. by rewrite Hk'. }
  assert (∀ k, k ∉ rest.*1 → entry (ms w') k = None) as Hgone.
  { intros k Hk_out. rewrite Hentry. apply peek_None.
    by rewrite fmap_reverse, elem_of_reverse, Hfst. }
  assert (∀ k v, (k, v) ∈ rest → value_of w' k = Some v) as Hval.
  { intros k v (i & Hi)%list_elem_of_lookup_1.
    destruct (Forall2_lookup_r _ _ _ _ _ Hes Hi) as ([k' p] & He & Hkp & Hcell).
    simpl in Hkp, Hcell. subst k'. apply value_of_Some. exists p. split; [|done].
    rewrite Hentry. apply peek_NoDup.
    - by rewrite fmap_reverse, reverse_Permutation, Hfst.
    - apply elem_of_reverse. by apply list_elem_of_lookup_2 with i. }
  assert (∀ k v, (k, v) ∈ rest → (Get k w').1 = (v, None)) as Hget.
  { intros k v (p & Hp & <-)%Hval%value_of_Some.
    by destruct (Get_hit _ _ _ Hp) as (s' & -> & _). }
  assert (store_ok (ms w')) as Hok.
  { unfold store_ok. by rewrite Hk'. }
  assert (∀ k, retrievable w' k = true ↔ k ∈ rest.*1) as Hretr.
  { intros k. unfold retrievable. split.
    - intros HG. destruct (decide (k ∈ rest.*1)) as [|Hout]; [done|].
      by rewrite (Get_miss _ _ (Hgone _ Hout)) in HG.
    - intros ([k' v] & -> & Hin)%list_elem_of_fmap. simpl. by rewrite (Hget _ _ Hin). }
  split.
  { simpl. destruct (retrievable w' k0) eqn:E0; [by apply Hretr in E0|].
    rewrite filter_all_true, length_fmap; [done|].
    apply Forall_forall. intros k Hin. by apply Hretr. }
  split; [done|].
  repeat split.
  - done.
  - rewrite get_all_values. rewrite <- !list_fmap_compose.
    apply list_fmap_ext. intros _ [k v] Hkv%list_elem_of_lookup_2. simpl.
    by rewrite (Hval _ _ Hkv).
  - by apply Get_miss, Hgone.
  - by apply Get_miss, Hgone.
  - intros old new. by apply CompareAndSwap_absent, Hgone.
  - pose proof (Hgone _ H) as Habs. eexists. split; [by apply SetNX_absent|].
    destruct (Get_hit {| heap := (alloc v (heap w')).2;
                         ms := add_entry k (brk (heap w')) (ms w') |} k (brk (heap w')))
      as (s' & -> & _).
    + simpl. by apply entry_add_entry.
    + simpl. by rewrite decide_True.
Qed.

Lemma bounded_evicts_least_recent_witness :
  (0 < 2)%Z
  ∧ Z.of_nat (length [("b", 2%Z); ("c", 3%Z)]) = 2%Z
  ∧ NoDup ("a" :: [("b", 2%Z); ("c", 3%Z)].*1)
  ∧ ∃ s w',
      NewMemStore 2 = (Some s, None)
      ∧ insert_all (("a", 1%Z) :: [("b", 2%Z); ("c", 3%Z)]) {| heap := heap0; ms := s |}
        = (replicate 3 (true, None), w')
      ∧ Z.of_nat (length (List.filter (retrievable w')
                            ("a" :: [("b", 2%Z); ("c", 3%Z)].*1))) = 2%Z
      ∧ (∀ k, retrievable w' k = true ↔ k ∈ [("b", 2%Z); ("c", 3%Z)].*1)
      ∧ (∀ k v, (k, v) ∈ [("b", 2%Z); ("c", 3%Z)] → (Get k w').1 = (v, None))
      ∧ (get_all [("b", 2%Z); ("c", 3%Z)].*1 w').1
        = (λ v, (v, None)) <$> [("b", 2%Z); ("c", 3%Z)].*2
      ∧ Get "a" w' = ((0%Z, Some ErrNoSuchKey), w')
      ∧ (∀ k v, k ∉ [("b", 2%Z); ("c", 3%Z)].*1 →
           Get k w' = ((0%Z, Some ErrNoSuchKey), w')
           ∧ (∀ old new, CompareAndSwap k old new w' = ((false, Some ErrNoSuchKey), w'))
           ∧ ∃ w'', SetNX k v w' = ((true, None), w'') ∧ (Get k w'').1 = (v, None)).
Proof.
  assert (NoDup ("a" :: [("b", 2%Z); ("c", 3%Z)].*1)) as Hnd.
  { apply (bool_decide_unpack (NoDup _)). vm_compute. exact I. }
  split; [lia|]. split; [reflexivity|]. split; [exact Hnd|].
  apply (bounded_evicts_least_recent 2 heap0 "a" 1 [("b", 2%Z); ("c", 3%Z)]);
    [lia | reflexivity | exact Hnd].
Defined.

(** ** Racing [SetNX] calls *)

Lemma sum_list_with_insert {A} (f : A → nat) (ts : list A) i t t' :
  ts !! i = Some t →
  sum_list_with f (<[i := t']> ts) + f t = sum_list_with f ts + f t'.
Proof.
  revert i. induction ts as [|a ts IH]; intros [|i] Hi; simpl in *; try done.
  - injection Hi as ->. lia.
  - specialize (IH _ Hi). lia.
Qed.

Lemma sum_list_with_pos {A} (f : A → nat) (ts : list A) :
  0 < sum_list_with f ts → ∃ i t, ts !! i = Some t ∧ 0 < f t.
Proof.
  induction ts as [|a ts IH]; simpl; [lia|]. intros H.
  destruct (decide (0 < f a)) as [Ha|Ha].
  - by exists 0, a.
  - destruct IH as (i & t & Hi & Ht); [lia|]. by exists (S i), t.
Qed.

Lemma sum_list_with_lookup_le {A} (f : A → nat) (ts : list A) i t :
  ts !! i = Some t → f t ≤ sum_list_with f ts.
Proof.
  revert i. induction ts as [|a ts IH]; intros [|i] Hi; simpl in *; try done.
  - injection Hi as ->. lia.
  - specialize (IH _ Hi). lia.
Qed.

Lemma sum_list_with_zero {A} (f : A → nat) (ts : list A) i t :
  sum_list_with f ts = 0 → ts !! i = Some t → f t = 0.
Proof.
  intros H0 Hi. pose proof (sum_list_with_lookup_le f _ _ _ Hi). lia.
Qed.

Lemma sum_list_with_others {A} (f : A → nat) (ts : list A) i t :
  ts !! i = Some t → sum_list_with f ts ≤ f t →
  ∀ j tj, j ≠ i → ts !! j = Some tj → f tj = 0.
Proof.
  revert i. induction ts as [|a ts IH]; intros [|i] Hi Hsum [|j] tj Hne Hj;
    simpl in *; try done.
  - injection Hi as ->. apply (sum_list_with_zero f ts j); [lia | done].
  - injection Hj as ->. pose proof (sum_list_with_lookup_le f _ _ _ Hi). lia.
  - apply (IH i Hi ltac:(lia) j); [lia | done].
Qed.

Lemma Forall_insert_others {A} (P : A → Prop) (ts : list A) i t' :
  (∀ j tj, j ≠ i → ts !! j = Some tj → P tj) → P t' → Forall P (<[i := t']> ts).
Proof.
  intros Ho Ht. apply Forall_lookup. intros j x Hj.
  apply list_lookup_insert_Some in Hj as [(-> & -> & _)|[Hne Hj]]; [done|].
  by apply (Ho j).
Qed.

(** Splits [thread_step] into the actions it can take. *)
Ltac step_cases H :=
  unfold thread_step in H;
  repeat match type of H with
    | context [match pc ?t with _ => _ end] => destruct (pc t) eqn:?
    | context [match keys ?s with _ => _ end] => destruct (keys s) eqn:?
    | context [match get ?k ?b ?s with _ => _ end] =>
        let E := fresh "Eget" in destruct (get k b s) as [? ?] eqn:E
    | context [if ?b then _ else _] => destruct b eqn:?
    end;
  try discriminate H;
  injection H as <- <- <-.

Lemma thread_step_value key t w l t' w' l' :
  thread_step key t w l = Some (t', w', l') → value t' = value t.
Proof. intros H. by step_cases H. Qed.

Lemma thread_step_remaining key t w l t' w' l' :
  thread_step key t w l = Some (t', w', l') → remaining (pc t') < remaining (pc t).
Proof.
  intros H. step_cases H; simpl; try lia;
    match goal with |- context [after_check ?v] => destruct v; simpl; lia
                  | |- context [after_recheck ?v] => destruct v; simpl; lia end.
Qed.

Lemma thread_step_crit key t w l t' w' l' :
  thread_step key t w l = Some (t', w', l') →
  in_crit (pc t) ≤ Nat.b2n (writer l) →
  Nat.b2n (writer l') + in_crit (pc t) = Nat.b2n (writer l) + in_crit (pc t').
Proof.
  intros H Hle. step_cases H; simpl in *;
    repeat match goal with
      | |- context [after_check ?v] => destruct v; simpl
      | |- context [after_recheck ?v] => destruct v; simpl
      | H : (_ || _) = false |- _ => apply orb_false_elim in H as [? ?]
      | H : writer ?l = _ |- _ => rewrite H in *; simpl in *
      end; try lia.
  destruct (writer l); simpl in *; lia.
Qed.

Lemma thread_step_read key t w l t' w' l' :
  thread_step key t w l = Some (t', w', l') →
  in_read (pc t) ≤ readers l →
  readers l' + in_read (pc t) = readers l + in_read (pc t').
Proof.
  intros H Hle. step_cases H; simpl in *;
    repeat match goal with
      | |- context [after_check ?v] => destruct v; simpl
      | |- context [after_recheck ?v] => destruct v; simpl
      end; lia.
Qed.

Lemma thread_step_world key t w l t' w' l' :
  thread_step key t w l = Some (t', w', l') →
  pc t ≠ Inserting →
  heap w' = heap w
  ∧ (∀ k, entry (ms w') k = entry (ms w) k)
  ∧ (store_ok (ms w) → store_ok (ms w')).
Proof.
  intros H Hne. step_cases H; try done; simpl;
    match goal with
    | E : get ?k ?b ?s = (_, ?s') |- _ =>
        pose proof (get_entry k b s) as He; pose proof (get_ok k b s) as Ho;
        rewrite E in He, Ho; done
    end.
Qed.

Lemma thread_ok_world key w w' t :
  heap w' = heap w → entry (ms w') key = entry (ms w) key →
  thread_ok key w t → thread_ok key w' t.
Proof. unfold thread_ok. by intros -> ->. Qed.

Lemma thread_step_ok key t w l t' w' l' :
  thread_step key t w l = Some (t', w', l') →
  pc t ≠ Inserting →
  thread_ok key w t →
  thread_ok key w t' ∧ won (pc t') = won (pc t).
Proof.
  intros H Hne [Herr Hok]. unfold thread_ok.
  step_cases H; try done; simpl in *;
    try match goal with
      | E : get ?k ?b ?s = (?v, _) |- _ =>
          pose proof (get_fst k b s) as Hv; rewrite E in Hv; simpl in Hv; subst v
      end;
    destruct (entry (ms w) key) as [p|] eqn:Hentry; simpl;
    try (destruct Hok; discriminate);
    repeat split; try done; try (by intros ?? [= <- <-]).
  all: try match goal with o : option nat |- _ => destruct o; simpl in * end;
    repeat split; try done; try (by intros ?? [= <- <-]); try (by destruct Hok).
  all: try match goal with b : bool |- _ => destruct b; simpl in * end;
    repeat split; try done; try (by intros ?? [= <- <-]); try (by destruct Hok).
Qed.

Lemma thread_step_insert key t w l :
  pc t = Inserting →
  thread_step key t w l =
    Some ({| pc := Unlocking true; value := value t |},
          {| heap := (alloc (value t) (heap w)).2;
             ms := add_entry key (brk (heap w)) (ms w) |}, l).
Proof. intros H. unfold thread_step. by rewrite H. Qed.

Lemma values_insert (ts : list Thread) i t t' :
  ts !! i = Some t → value t' = value t → value <$> <[i := t']> ts = value <$> ts.
Proof.
  intros Hi Hv. rewrite list_fmap_insert, Hv. apply list_insert_id.
  by rewrite list_lookup_fmap, Hi.
Qed.

Lemma step_Inv key vs c i c' : Inv key vs c → step key i c = Some c' → Inv key vs c'.
Proof.
  intros [Hok Hvals Hcrit Hread Hwon Hts] Hstep. unfold step in Hstep.
  destruct (threads c !! i) as [t|] eqn:Hi; [|done].
  destruct (thread_step key t (world c) (mu c)) as [[[t' w'] l']|] eqn:Hst; [|done].
  injection Hstep as <-.
  pose proof (sum_list_with_insert (in_crit ∘ pc) _ _ _ t' Hi) as Sc.
  pose proof (sum_list_with_insert (in_read ∘ pc) _ _ _ t' Hi) as Sr.
  pose proof (sum_list_with_insert (won ∘ pc) _ _ _ t' Hi) as Sw.
  pose proof (sum_list_with_lookup_le (in_crit ∘ pc) _ _ _ Hi) as Lc.
  pose proof (sum_list_with_lookup_le (in_read ∘ pc) _ _ _ Hi) as Lr.
  pose proof (thread_step_crit _ _ _ _ _ _ _ Hst) as Tc.
  pose proof (thread_step_read _ _ _ _ _ _ _ Hst) as Tr.
  pose proof (proj1 (Forall_lookup _ _) Hts _ _ Hi) as Ht.
  simpl in *.
  destruct (decide (pc t = Inserting)) as [Hins|Hins].
  - (* the insertion *)
    rewrite (thread_step_insert _ _ _ _ Hins) in Hst. injection Hst as <- <- <-.
    destruct Ht as [_ Ht].
    destruct (entry (ms (world c)) key) as [p|] eqn:Hentry; [by destruct Ht|].
    pose proof (entry_add_entry _ _ (brk (heap (world c))) Hok Hentry) as Hnew.
    rewrite Hins in *. simpl in *.
    split; simpl.
    + by apply add_entry_ok.
    + rewrite <- Hvals. by apply (values_insert _ _ t).
    + lia.
    + lia.
    + rewrite Hnew. lia.
    + apply Forall_insert_others.
      * intros j tj Hne Hj.
        pose proof (proj1 (Forall_lookup _ _) Hts _ _ Hj) as Hj_ok.
        unfold thread_ok in Hj_ok. rewrite Hentry in Hj_ok.
        destruct Hj_ok as [Herr [Hw _]].
        assert (in_crit (pc tj) = 0) as Hc.
        { apply (sum_list_with_others (in_crit ∘ pc) (threads c) i t Hi) with j.
          - simpl. rewrite Hins. simpl. rewrite Hcrit. destruct (writer (mu c)); simpl; lia.
          - done.
          - done. }
        unfold thread_ok. simpl. split; [done|]. rewrite Hnew. split.
        -- intros Hj'. by rewrite Hj' in Hc.
        -- intros Hw'. lia.
      * unfold thread_ok. simpl. split; [done|]. rewrite Hnew. split; [done|].
        intros _. by rewrite decide_True.
  - (* every other action leaves the entries and the cells as they are *)
    destruct (thread_step_world _ _ _ _ _ _ _ Hst Hins) as (Hheap & Hent & Hok').
    destruct (thread_step_ok _ _ _ _ _ _ _ Hst Hins Ht) as [Ht' Hwon'].
    split; simpl.
    + by apply Hok'.
    + rewrite <- Hvals. apply (values_insert _ _ t); [done|].
      by apply thread_step_value in Hst.
    + rewrite Hcrit in Lc. specialize (Tc Lc). lia.
    + rewrite Hread in Lr. specialize (Tr Lr). lia.
    + rewrite Hent. lia.
    + apply Forall_insert.
      * eapply Forall_impl; [exact Hts|]. intros tj. by apply thread_ok_world.
      * by apply (thread_ok_world key (world c)).
Qed.

Lemma sum_init (f : PC → nat) (vs : list Z) :
  f Start = 0 →
  sum_list_with (f ∘ pc) ((λ v, {| pc := Start; value := v |}) <$> vs) = 0.
Proof.
  intros H. induction vs as [|v vs IH]; [done|].
  rewrite fmap_cons. simpl. rewrite H. exact IH.
Qed.

Lemma init_Inv key vs w :
  store_ok (ms w) → entry (ms w) key = None → Inv key vs (init w vs).
Proof.
  intros Hok Habs. split; simpl.
  - done.
  - rewrite <- list_fmap_compose. by rewrite list_fmap_id.
  - by apply sum_init.
  - by apply sum_init.
  - rewrite Habs. by apply sum_init.
  - apply Forall_fmap, Forall_true. intros v. unfold thread_ok. simpl.
    by rewrite Habs.
Qed.

Lemma run_app key s1 s2 c : run key (s1 ++ s2) c = run key s2 (run key s1 c).
Proof. unfold run. apply foldl_app. Qed.

Lemma run_Inv key vs sched c : Inv key vs c → Inv key vs (run key sched c).
Proof.
  revert c. induction sched as [|i sched IH]; intros c HI; simpl; [done|].
  apply IH. destruct (step key i c) as [c'|] eqn:E; simpl; [|done].
  by apply (step_Inv key vs c i).
Qed.

Lemma run_cons key i sched c :
  run key (i :: sched) c = run key sched (default c (step key i c)).
Proof. done. Qed.

Lemma run_cons_Some key i sched c c' :
  step key i c = Some c' → run key (i :: sched) c = run key sched c'.
Proof. intros H. by rewrite run_cons, H. Qed.

Lemma run_all_None key i n c : step key i c = None → run key (replicate n i) c = c.
Proof.
  intros H. induction n as [|n IH]; [done|].
  simpl replicate. by rewrite run_cons, H.
Qed.

(** A call that runs alone does what the sequential [SetNX] does. *)
Lemma SetNX_alone key v w :
  returned (run key (replicate 7 0) (init w [v])) 0 = Some (SetNX key v w).1
  ∧ world (run key (replicate 7 0) (init w [v])) = (SetNX key v w).2
  ∧ mu (run key (replicate 7 0) (init w [v])) = {| writer := false; readers := 0 |}.
Proof.
  unfold init. simpl replicate. destruct w as [h [[c|] mm]].
  - (* bounded *)
    unfold SetNX. cbn [ms heap].
    destruct (entry {| keys := Some c; m := mm |} key) as [p|] eqn:E.
    + destruct (get_hit key false _ _ E) as (s' & Hget & _). rewrite Hget.
      unfold get in Hget. cbn in Hget.
      erewrite run_cons_Some; [|unfold step, thread_step; cbn; rewrite Hget; reflexivity].
      by rewrite (run_all_None key 0 6).
    + pose proof (get_miss key false _ E) as Hget.
      pose proof (get_miss key true _ E) as Hget'. rewrite Hget, Hget'.
      unfold get in Hget. cbn in Hget.
      erewrite run_cons_Some; [|unfold step, thread_step; cbn; rewrite Hget; reflexivity].
      erewrite run_cons_Some; [|reflexivity].
      erewrite run_cons_Some; [|unfold step, thread_step; cbn; rewrite Hget; reflexivity].
      erewrite run_cons_Some; [|reflexivity].
      erewrite run_cons_Some; [|reflexivity].
      by rewrite (run_all_None key 0 2).
  - (* unbounded *)
    unfold SetNX, get. cbn [ms heap keys m].
    erewrite run_cons_Some; [|unfold step, thread_step; cbn; reflexivity].
    erewrite run_cons_Some; [|unfold step, thread_step; cbn; reflexivity].
    erewrite run_cons_Some; [|unfold step, thread_step; cbn; reflexivity].
    destruct (mm !! key) as [p|] eqn:E.
    + by rewrite (run_all_None key 0 4).
    + erewrite run_cons_Some; [|unfold step, thread_step; cbn; reflexivity].
      erewrite run_cons_Some; [|unfold step, thread_step; cbn; rewrite E; reflexivity].
      erewrite run_cons_Some; [|unfold step, thread_step; cbn; reflexivity].
      erewrite run_cons_Some; [|unfold step, thread_step; cbn; reflexivity].
      done.
Qed.

(** Three calls racing on a map-backed store, interleaved action by action:
    the second call takes the lock first and wins. *)
Example race_of_three :
  let c := run "k" [0; 1; 2; 0; 1; 2; 0; 1; 2; 1; 0; 1; 1; 1; 2; 2; 2; 2; 0; 0; 0]
               (init unbounded_ab [7%Z; 8%Z; 9%Z]) in
  returned c <$> [0; 1; 2] = [Some (false, None); Some (true, None); Some (false, None)]
  ∧ (Get "k" (world c)).1 = (8%Z, None)
  ∧ mu c = {| writer := false; readers := 0 |}.
Proof. vm_compute. done. Qed.

Lemma step_remaining key i c c' :
  step key i c = Some c' →
  sum_list_with (remaining ∘ pc) (threads c') < sum_list_with (remaining ∘ pc) (threads c).
Proof.
  unfold step. intros Hstep.
  destruct (threads c !! i) as [t|] eqn:Hi; [|done].
  destruct (thread_step key t (world c) (mu c)) as [[[t' w'] l']|] eqn:Hst; [|done].
  injection Hstep as <-. simpl.
  pose proof (sum_list_with_insert (remaining ∘ pc) _ _ _ t' Hi) as S.
  pose proof (thread_step_remaining _ _ _ _ _ _ _ Hst). simpl in S. lia.
Qed.

Lemma enabled key vs c :
  Inv key vs c → ¬ all_done c → ∃ i c', step key i c = Some c'.
Proof.
  intros [_ _ Hcrit Hread _ _] Hnd.
  assert (∃ i t, threads c !! i = Some t ∧
                 thread_step key t (world c) (mu c) ≠ None) as (i & t & Hi & Hen).
  { destruct (writer (mu c)) eqn:Hw.
    - (* the holder of the lock can move *)
      destruct (sum_list_with_pos (in_crit ∘ pc) (threads c)) as (i & t & Hi & Ht);
        [rewrite Hcrit; simpl; lia|].
      exists i, t. split; [done|]. unfold thread_step. simpl in Ht.
      destruct (pc t); simpl in Ht; try lia; try done.
      by destruct (get key true (ms (world c))).
    - destruct (decide (readers (mu c) = 0)) as [Hr|Hr].
      + (* the lock is free: whoever has not returned can move *)
        apply not_Forall_Exists in Hnd; [|intros ?; apply _].
        apply Exists_exists in Hnd as (t & [i Hi]%list_elem_of_lookup_1 & Ht).
        exists i, t. split; [done|]. unfold thread_step. simpl in Ht.
        unfold is_done in Ht. rewrite Hw, Hr. simpl.
        destruct (pc t); try done.
        * destruct (keys (ms (world c))); [|done].
          by destruct (get key false (ms (world c))).
        * by destruct (get key false (ms (world c))).
        * by destruct (get key true (ms (world c))).
      + (* a reader can move *)
        destruct (sum_list_with_pos (in_read ∘ pc) (threads c)) as (i & t & Hi & Ht);
          [rewrite Hread; lia|].
        exists i, t. split; [done|]. unfold thread_step. simpl in Ht.
        destruct (pc t); simpl in Ht; try lia; try done.
        by destruct (get key false (ms (world c))). }
  unfold step. exists i. rewrite Hi.
  destruct (thread_step key t (world c) (mu c)) as [[[t' w'] l']|]; [|done].
  by eexists.
Qed.

Lemma completes key vs c : Inv key vs c → ∃ sched, all_done (run key sched c).
Proof.
  remember (sum_list_with (remaining ∘ pc) (threads c)) as n eqn:Hn.
  revert c Hn. induction (lt_wf n) as [n _ IH]. intros c -> HI.
  destruct (decide (all_done c)) as [Hd|Hd]; [by exists []|].
  destruct (enabled _ _ _ HI Hd) as (i & c' & Hstep).
  destruct (IH _ (step_remaining _ _ _ _ Hstep) c' eq_refl) as [sched Hsched].
  { by apply (step_Inv key vs c i). }
  exists (i :: sched). simpl. by rewrite Hstep.
Qed.

(** C9.  [N >= 1] calls of [SetNX] race on a key that has no entry, each
    with its own value.  Whatever the schedule, once all calls have
    returned exactly one of them has returned [true], the others have
    returned [false], none has returned an error, and [Get] returns the
    value of the call that returned [true].  And the calls can always all
    return: every schedule has a continuation after which they have. *)
Theorem SetNX_race_one_winner (key : string) (vs : list Z) (w : World) :
  store_ok (ms w) →
  value_of w key = None →
  vs ≠ [] →
  (∀ sched,
     all_done (run key sched (init w vs)) →
     ∃ i v,
       vs !! i = Some v
       ∧ (∀ j, j < length vs →
            returned (run key sched (init w vs)) j = Some (bool_decide (j = i), None))
       ∧ (Get key (world (run key sched (init w vs)))).1 = (v, None))
  ∧ (∀ sched, ∃ sched', all_done (run key (sched ++ sched') (init w vs))).
Proof.
  intros Hok Habs%value_of_None Hvs.
  pose proof (init_Inv key vs w Hok Habs) as HI0. split.
  - intros sched Hdone. set (c := run key sched (init w vs)) in *.
    destruct (run_Inv key vs sched _ HI0) as [_ Hvals _ _ Hwon Hts]. fold c in Hvals, Hwon, Hts.
    assert (∀ j t, threads c !! j = Some t → ∃ r, pc t = Done (r, None)) as Hret.
    { intros j t Hj.
      pose proof (proj1 (Forall_lookup _ _) Hdone _ _ Hj) as Hd. unfold is_done in Hd.
      pose proof (proj1 (Forall_lookup _ _) Hts _ _ Hj) as [Herr _].
      destruct (pc t) as [| | | | | | |[r e]]; try done.
      exists r. by rewrite (Herr r e). }
    destruct (entry (ms (world c)) key) as [p|] eqn:Hentry.
    + destruct (sum_list_with_pos (won ∘ pc) (threads c)) as (i & t & Hi & Ht); [lia|].
      pose proof (sum_list_with_others (won ∘ pc) _ _ _ Hi ltac:(simpl in *; lia)) as Hothers.
      pose proof (proj1 (Forall_lookup _ _) Hts _ _ Hi) as [_ Hti]. rewrite Hentry in Hti.
      destruct Hti as [_ Hcell].
      pose proof (sum_list_with_lookup_le (won ∘ pc) _ _ _ Hi) as Hle. simpl in Ht, Hle.
      exists i, (value t). split; [|split].
      * by rewrite <- Hvals, list_lookup_fmap, Hi.
      * intros j Hj. rewrite <- Hvals, length_fmap in Hj.
        destruct (lookup_lt_is_Some_2 _ _ Hj) as [tj Htj].
        destruct (Hret _ _ Htj) as [r Hr]. unfold returned. rewrite Htj.
        destruct tj as [pj vj]. simpl in Hr. subst pj. do 3 f_equal.
        destruct (decide (j = i)) as [->|Hne].
        -- rewrite bool_decide_eq_true_2 by done.
           rewrite Hi in Htj. injection Htj as ->.
           destruct r; simpl in Ht; [done | lia].
        -- rewrite bool_decide_eq_false_2 by done.
           pose proof (Hothers _ _ Hne Htj) as H0. simpl in H0. by destruct r.
      * destruct (Get_hit _ _ _ Hentry) as (s' & -> & _). simpl. f_equal.
        apply Hcell. lia.
    + exfalso. destruct (threads c) as [|t ts] eqn:Hthreads.
      { apply Hvs. by rewrite <- Hvals. }
      destruct (Hret 0 t eq_refl) as [r Hr].
      apply Forall_cons_1 in Hts as [[_ Ht] _]. rewrite Hentry, Hr in Ht.
      destruct r; simpl in Ht; by destruct Ht.
  - intros sched.
    destruct (completes key vs (run key sched (init w vs))) as [sched' Hd].
    { by apply run_Inv. }
    exists sched'. by rewrite run_app.
Qed.

Lemma SetNX_race_one_winner_witness :
  store_ok (ms bounded2_ab)
  ∧ value_of bounded2_ab "c" = None
  ∧ [7%Z; 8%Z; 9%Z] ≠ []
  ∧ (∀ sched,
       all_done (run "c" sched (init bounded2_ab [7%Z; 8%Z; 9%Z])) →
       ∃ i v,
         [7%Z; 8%Z; 9%Z] !! i = Some v
         ∧ (∀ j, j < length [7%Z; 8%Z; 9%Z] →
              returned (run "c" sched (init bounded2_ab [7%Z; 8%Z; 9%Z])) j
              = Some (bool_decide (j = i), None))
         ∧ (Get "c" (world (run "c" sched (init bounded2_ab [7%Z; 8%Z; 9%Z])))).1
           = (v, None))
  ∧ (∀ sched, ∃ sched',
       all_done (run "c" (sched ++ sched') (init bounded2_ab [7%Z; 8%Z; 9%Z]))).
Proof.
  split; [reflexivity|]. split; [reflexivity|]. split; [discriminate|].
  apply (SetNX_race_one_winner "c" [7%Z; 8%Z; 9%Z] bounded2_ab);
    [reflexivity | reflexivity | discriminate].
Defined.

(** * Further properties of the store *)

(** ** What every reachable store satisfies *)

Lemma peek_take_Some key n l p :
  lru.peek key (take n l) = Some p → lru.peek key l = Some p.
Proof.
  intros H. rewrite <- (take_drop n l), peek_app. by rewrite H.
Qed.

Lemma get_cache_ok key b s : cache_ok s → cache_ok (get key b s).2.
Proof.
  unfold cache_ok, get. destruct (keys s) as [c|] eqn:Hk; simpl; [|by rewrite Hk].
  intros (Hsz & Hlen & Hnd & Hm). unfold lru.Get.
  destruct (lru.extract key (lru.evictList c)) as [[p r]|] eqn:E; simpl; [|done].
  apply extract_Some in E as (l1 & l2 & Hl & -> & _). rewrite Hl in Hlen, Hnd.
  split; [done|]. split.
  - rewrite length_app in Hlen. simpl in *. rewrite length_app. lia.
  - split; [|done]. change (NoDup ((key, p) :: l1 ++ l2).*1).
    by rewrite (Permutation_middle l1 l2 (key, p)).
Qed.

Lemma entry_add_entry_ne s key p k q :
  cache_ok s → entry s key = None → k ≠ key →
  entry (add_entry key p s) k = Some q → entry s k = Some q.
Proof.
  unfold cache_ok, entry, add_entry. destruct (keys s) as [c|]; simpl.
  - intros (_ & Hlen & _) Habs Hne. rewrite lru_Add_fresh by done. simpl.
    intros H%peek_take_Some. simpl in H. by rewrite decide_False in H.
  - intros _ _ Hne. by rewrite lookup_insert_ne.
Qed.

Lemma add_entry_cache_ok s key p :
  cache_ok s → entry s key = None → cache_ok (add_entry key p s).
Proof.
  unfold cache_ok, entry, add_entry. destruct (keys s) as [c|]; simpl; [|done].
  intros (Hsz & Hlen & Hnd & Hm) Habs. rewrite lru_Add_fresh by done. simpl.
  split; [done|]. split; [rewrite length_take; lia|]. split; [|done].
  rewrite fmap_take. apply (sublist_NoDup _ ((key, p) :: lru.evictList c).*1).
  - rewrite fmap_cons. apply NoDup_cons. split; [by apply peek_None | done].
  - apply sublist_take.
Qed.

Lemma cache_ok_store_ok s : cache_ok s → store_ok s.
Proof.
  unfold cache_ok, store_ok. destruct (keys s); [|done]. by intros (? & _).
Qed.

Lemma NewMemStore_wf maxKeys s h :
  NewMemStore maxKeys = (Some s, None) → wf {| heap := h; ms := s |}.
Proof.
  intros Hnew.
  assert (cache_ok s ∧ ∀ k, entry s k = None) as [Hc He].
  { destruct (Z.lt_ge_cases 0 maxKeys) as [H|H].
    - rewrite (NewMemStore_bounded _ H) in Hnew. injection Hnew as <-.
      split; [|done]. unfold cache_ok. simpl.
      split; [done|]. split; [lia|]. split; [apply NoDup_nil_2 | done].
    - rewrite (NewMemStore_unbounded _ H) in Hnew. injection Hnew as <-.
      split; [done|]. intros k. apply lookup_empty. }
  split; [|split; [|done]]; simpl; intros *; by rewrite He.
Qed.

Lemma Get_wf key w : wf w → wf (Get key w).2.
Proof.
  intros (Hal & Hinj & Hc). unfold Get.
  pose proof (get_entry key false (ms w)) as He.
  pose proof (get_cache_ok key false _ Hc) as Hc'.
  destruct (get key false (ms w)) as [[p|] s]; simpl in *;
    (split; [|split; [|done]]; simpl; intros *; rewrite !He; [apply Hal | apply Hinj]).
Qed.

Lemma CompareAndSwap_wf key old new w : wf w → wf (CompareAndSwap key old new w).2.
Proof.
  intros (Hal & Hinj & Hc). unfold CompareAndSwap, CompareAndSwapInt64.
  pose proof (get_entry key false (ms w)) as He.
  pose proof (get_cache_ok key false _ Hc) as Hc'.
  destruct (get key false (ms w)) as [[p|] s]; simpl in *;
    [destruct (cell (heap w) p =? old)%Z|]; simpl;
    (split; [|split; [|done]]; simpl; intros *; rewrite !He; [apply Hal | apply Hinj]).
Qed.

Lemma SetNX_wf key value w : wf w → wf (SetNX key value w).2.
Proof.
  intros (Hal & Hinj & Hc). destruct (entry (ms w) key) as [p|] eqn:E.
  - rewrite (SetNX_present _ _ _ _ E). simpl.
    pose proof (get_entry key false (ms w)) as He.
    split; [|split; [|by apply get_cache_ok]]; simpl; intros *; rewrite !He;
      [apply Hal | apply Hinj].
  - rewrite (SetNX_absent _ _ _ E). simpl.
    pose proof (entry_add_entry _ key (brk (heap w)) (cache_ok_store_ok _ Hc) E) as Hnew.
    assert (∀ k q, entry (add_entry key (brk (heap w)) (ms w)) k = Some q →
                   (k = key ∧ q = brk (heap w)) ∨ (k ≠ key ∧ entry (ms w) k = Some q))
      as Hcases.
    { intros k q Hk. destruct (decide (k = key)) as [->|Hne].
      - left. rewrite Hnew in Hk. by injection Hk as <-.
      - right. split; [done|]. by apply (entry_add_entry_ne _ key (brk (heap w))). }
    split; [|split; [|by apply add_entry_cache_ok]]; simpl.
    + intros k q [[-> ->]|[_ Hq]]%Hcases; [lia|]. apply Hal in Hq. lia.
    + intros k1 k2 q [[-> ->]|[Hne1 H1]]%Hcases [[-> Hq]|[Hne2 H2]]%Hcases; try done.
      * apply Hal in H2. lia.
      * apply Hal in H1. lia.
      * by apply (Hinj k1 k2 q).
Qed.

Lemma reachable_wf w : reachable w → wf w.
Proof.
  induction 1 as [maxKeys s h Hnew| | |].
  - by apply (NewMemStore_wf maxKeys).
  - by apply Get_wf.
  - by apply SetNX_wf.
  - by apply CompareAndSwap_wf.
Qed.

Lemma apply_ops_reachable ops w : reachable w → reachable (apply_ops ops w).
Proof.
  revert w. induction ops as [|o ops IH]; intros w Hw; [done|].
  apply IH. destruct o; simpl; by constructor.
Qed.

Lemma reachable_unbounded_ab : reachable unbounded_ab.
Proof.
  exact (reach_SetNX "b" 2 _ (reach_SetNX "a" 1 _
           (reach_New 0 {| keys := None; m := ∅ |} heap0 eq_refl))).
Qed.

Lemma reachable_bounded2_ab : reachable bounded2_ab.
Proof.
  exact (reach_SetNX "b" 2 _ (reach_SetNX "a" 1 _
           (reach_New 2 (ms bounded2) heap0 eq_refl))).
Qed.

(** ** One call *)

(** X1.  A store [NewMemStore] has just returned holds no key, whatever
    [maxKeys] is: [Get] and [CompareAndSwap] return the no-such-key error
    and leave it as it is, and [SetNX] creates the entry. *)
Theorem NewMemStore_empty (maxKeys : Z) (h : Heap) (k : string) :
  ∃ s,
    NewMemStore maxKeys = (Some s, None)
    ∧ Get k {| heap := h; ms := s |} = ((0%Z, Some ErrNoSuchKey), {| heap := h; ms := s |})
    ∧ (∀ old new,
         CompareAndSwap k old new {| heap := h; ms := s |}
         = ((false, Some ErrNoSuchKey), {| heap := h; ms := s |}))
    ∧ (∀ v, (SetNX k v {| heap := h; ms := s |}).1 = (true, None)).
Proof.
  assert (∃ s, NewMemStore maxKeys = (Some s, None) ∧ entry s k = None) as (s & Hnew & He).
  { destruct (Z.lt_ge_cases 0 maxKeys) as [H|H]; eexists.
    - split; [by apply NewMemStore_bounded | done].
    - split; [by apply NewMemStore_unbounded | apply lookup_empty]. }
  exists s. split; [done|]. split; [by apply Get_miss|].
  split; [intros; by apply CompareAndSwap_absent|].
  intros v. by rewrite SetNX_absent.
Qed.

(** X2.  After [SetNX(key, value)], [Get(key)] never fails: it returns the
    value the key already had, or [value] if the key had none. *)
Theorem SetNX_then_Get (w : World) (key : string) (value : Z) :
  store_ok (ms w) →
  (Get key (SetNX key value w).2).1 = (default value (value_of w key), None).
Proof.
  intros Hok. unfold value_of. destruct (entry (ms w) key) as [p|] eqn:E; simpl.
  - rewrite (SetNX_present _ _ _ _ E). cbn [snd].
    destruct (Get_hit {| heap := heap w; ms := (get key false (ms w)).2 |} key p)
      as (s' & -> & _); [|done].
    simpl. by rewrite get_entry.
  - rewrite (SetNX_absent _ _ _ E). cbn [snd].
    destruct (Get_hit {| heap := (alloc value (heap w)).2;
                         ms := add_entry key (brk (heap w)) (ms w) |} key (brk (heap w)))
      as (s' & -> & _).
    + simpl. by apply entry_add_entry.
    + simpl. by rewrite decide_True.
Qed.

Lemma SetNX_then_Get_witness :
  store_ok (ms bounded2_ab)
  ∧ (Get "c" (SetNX "c" 3 bounded2_ab).2).1 = (default 3%Z (value_of bounded2_ab "c"), None).
Proof.
  split; [reflexivity|]. apply (SetNX_then_Get bounded2_ab "c" 3). reflexivity.
Defined.

(** X3.  A second [SetNX] on the same key reports [false] whatever value it
    carries, and the key keeps the value it had after the first. *)
Theorem SetNX_twice (w : World) (key : string) (v1 v2 : Z) :
  store_ok (ms w) →
  (SetNX key v2 (SetNX key v1 w).2).1 = (false, None)
  ∧ value_of (SetNX key v2 (SetNX key v1 w).2).2 key = value_of (SetNX key v1 w).2 key.
Proof.
  intros Hok.
  assert (∃ p, entry (ms (SetNX key v1 w).2) key = Some p) as [p Hp].
  { destruct (entry (ms w) key) as [p|] eqn:E.
    - exists p. rewrite (SetNX_present _ _ _ _ E). simpl. by rewrite get_entry.
    - eexists. rewrite (SetNX_absent _ _ _ E). simpl. by apply entry_add_entry. }
  rewrite (SetNX_present _ _ _ _ Hp). split; [done|].
  unfold value_of. simpl. by rewrite get_entry.
Qed.

Lemma SetNX_twice_witness :
  store_ok (ms unbounded0)
  ∧ (SetNX "a" 2 (SetNX "a" 1 unbounded0).2).1 = (false, None)
  ∧ value_of (SetNX "a" 2 (SetNX "a" 1 unbounded0).2).2 "a"
    = value_of (SetNX "a" 1 unbounded0).2 "a".
Proof.
  split; [reflexivity|]. apply (SetNX_twice unbounded0 "a" 1 2). reflexivity.
Defined.

(** X4.  Reading a key with [Get] and then calling [CompareAndSwap] with the
    value read as [old] swaps: it returns [(true, nil)], and [Get] then
    returns [new]. *)
Theorem Get_then_CompareAndSwap (w : World) (key : string) (v new : Z) :
  value_of w key = Some v →
  (Get key w).1 = (v, None)
  ∧ (CompareAndSwap key v new (Get key w).2).1 = (true, None)
  ∧ (Get key (CompareAndSwap key v new (Get key w).2).2).1 = (new, None).
Proof.
  intros (p & Hp & <-)%value_of_Some.
  destruct (Get_hit _ _ _ Hp) as (s1 & -> & _ & Hs1). simpl. split; [done|].
  destruct (CompareAndSwap_hit {| heap := heap w; ms := s1 |} key (cell (heap w) p) new p)
    as (s2 & -> & Hs2); [simpl; by rewrite Hs1|].
  simpl. rewrite Z.eqb_refl. split; [done|].
  destruct (Get_hit {| heap := store_cell p new (heap w); ms := s2 |} key p)
    as (s3 & -> & _).
  - simpl. simpl in Hs2. by rewrite Hs2, Hs1.
  - simpl. by rewrite decide_True.
Qed.

Lemma Get_then_CompareAndSwap_witness :
  value_of bounded2_ab "a" = Some 1%Z
  ∧ (Get "a" bounded2_ab).1 = (1%Z, None)
  ∧ (CompareAndSwap "a" 1 5 (Get "a" bounded2_ab).2).1 = (true, None)
  ∧ (Get "a" (CompareAndSwap "a" 1 5 (Get "a" bounded2_ab).2).2).1 = (5%Z, None).
Proof.
  split; [reflexivity|]. apply (Get_then_CompareAndSwap bounded2_ab "a" 1 5). reflexivity.
Defined.

Lemma CompareAndSwap_other w key old new k :
  wf w → k ≠ key → value_of (CompareAndSwap key old new w).2 k = value_of w k.
Proof.
  intros (Hal & Hinj & _) Hne. destruct (entry (ms w) key) as [p|] eqn:E.
  - destruct (CompareAndSwap_hit w key old new p E) as (s' & -> & Hs').
    unfold value_of. simpl. rewrite Hs'.
    destruct (entry (ms w) k) as [q|] eqn:Ek; [|done]. simpl. f_equal.
    destruct (cell (heap w) p =? old)%Z; [|done]. simpl.
    rewrite decide_False; [done|]. intros ->. apply Hne. by apply (Hinj k key p).
  - by rewrite (CompareAndSwap_absent _ _ _ _ E).
Qed.

(** X5.  [CompareAndSwap] on a key changes the value of no other key: no
    two keys of a store share a cell. *)
Theorem CompareAndSwap_frame (w : World) (key k : string) (old new : Z) :
  reachable w →
  k ≠ key →
  value_of (CompareAndSwap key old new w).2 k = value_of w k.
Proof. intros Hw%reachable_wf. by apply CompareAndSwap_other. Qed.

Lemma CompareAndSwap_frame_witness :
  reachable unbounded_ab
  ∧ "b" ≠ "a"
  ∧ value_of (CompareAndSwap "a" 1 5 unbounded_ab).2 "b" = value_of unbounded_ab "b".
Proof.
  split; [exact reachable_unbounded_ab|]. split; [discriminate|].
  apply (CompareAndSwap_frame unbounded_ab "a" "b" 1 5);
    [exact reachable_unbounded_ab | discriminate].
Defined.

Lemma SetNX_keeps w key value k v :
  wf w → value_of w k = Some v →
  value_of (SetNX key value w).2 k = Some v
  ∨ (keys (ms w) ≠ None ∧ k ≠ key ∧ value_of (SetNX key value w).2 k = None).
Proof.
  intros (Hal & Hinj & Hc) (q & Hq & Hv)%value_of_Some.
  destruct (entry (ms w) key) as [p|] eqn:E.
  - left. rewrite (SetNX_present _ _ _ _ E). apply value_of_Some. exists q.
    simpl. by rewrite get_entry.
  - assert (k ≠ key) as Hne by congruence.
    rewrite (SetNX_absent _ _ _ E). unfold value_of. simpl.
    destruct (entry (add_entry key (brk (heap w)) (ms w)) k) as [q'|] eqn:Ek; simpl.
    + left. apply entry_add_entry_ne in Ek; [|done..]. rewrite Hq in Ek.
      injection Ek as <-. apply Hal in Hq. rewrite decide_False by lia. by rewrite Hv.
    + right. split; [|done]. intros Hk. unfold entry, add_entry in Ek, Hq.
      rewrite Hk in Ek, Hq. simpl in Ek. rewrite lookup_insert_ne in Ek by done.
      congruence.
Qed.

(** X6.  [SetNX] never overwrites: a key that has a value keeps it across a
    [SetNX] on any key, unless the store is bounded and the call, made for
    another key, has evicted it. *)
Theorem SetNX_never_overwrites (w : World) (key k : string) (value v : Z) :
  reachable w →
  value_of w k = Some v →
  value_of (SetNX key value w).2 k = Some v
  ∨ (keys (ms w) ≠ None ∧ k ≠ key ∧ value_of (SetNX key value w).2 k = None).
Proof. intros Hw%reachable_wf. by apply SetNX_keeps. Qed.

Lemma SetNX_never_overwrites_witness :
  reachable bounded2_ab
  ∧ value_of bounded2_ab "a" = Some 1%Z
  ∧ (value_of (SetNX "a" 9 bounded2_ab).2 "a" = Some 1%Z
     ∨ (keys (ms bounded2_ab) ≠ None ∧ "a" ≠ "a"
        ∧ value_of (SetNX "a" 9 bounded2_ab).2 "a" = None)).
Proof.
  split; [exact reachable_bounded2_ab|]. split; [reflexivity|].
  apply (SetNX_never_overwrites bounded2_ab "a" "a" 9 1);
    [exact reachable_bounded2_ab | reflexivity].
Defined.

(** ** Sequences of calls *)

Lemma retrievable_entry w k : retrievable w k = true ↔ entry (ms w) k ≠ None.
Proof.
  unfold retrievable. destruct (entry (ms w) k) as [p|] eqn:E.
  - destruct (Get_hit _ _ _ E) as (s' & -> & _). by split.
  - rewrite (Get_miss _ _ E). by split.
Qed.

Lemma Get_value_of key w k : value_of (Get key w).2 k = value_of w k.
Proof.
  destruct (entry (ms w) key) as [p|] eqn:E.
  - destruct (Get_hit _ _ _ E) as (s' & -> & _ & Hs'). unfold value_of. simpl.
    by rewrite Hs'.
  - by rewrite (Get_miss _ _ E).
Qed.

Lemma get_capacity key b s : lru.size <$> keys (get key b s).2 = lru.size <$> keys s.
Proof.
  unfold get. destruct (keys s) as [c|] eqn:E; simpl; [|by rewrite E].
  pose proof (lru_Get_size key c). destruct (lru.Get key c). simpl in *. by f_equal.
Qed.

Lemma apply_op_capacity o w :
  lru.size <$> keys (ms (apply_op o w)) = lru.size <$> keys (ms w).
Proof.
  destruct o as [key|key value|key old new]; simpl.
  - unfold Get. pose proof (get_capacity key false (ms w)).
    by destruct (get key false (ms w)) as [[p|] s].
  - destruct (entry (ms w) key) as [p|] eqn:E.
    + rewrite (SetNX_present _ _ _ _ E). apply get_capacity.
    + rewrite (SetNX_absent _ _ _ E). simpl. unfold add_entry.
      destruct (keys (ms w)) as [c|]; [|done]. simpl. unfold lru.Add.
      by destruct (lru.extract key (lru.evictList c)) as [[??]|].
  - unfold CompareAndSwap. pose proof (get_capacity key false (ms w)).
    destruct (get key false (ms w)) as [[p|] s]; [|done].
    by destruct (CompareAndSwapInt64 p old new (heap w)).
Qed.

Lemma apply_ops_capacity ops w :
  lru.size <$> keys (ms (apply_ops ops w)) = lru.size <$> keys (ms w).
Proof.
  revert w. induction ops as [|o ops IH]; intros w; [done|].
  change (apply_ops (o :: ops) w) with (apply_ops ops (apply_op o w)).
  by rewrite IH, apply_op_capacity.
Qed.

(** X7.  A store built with a positive [maxKeys] stays a cache of that
    capacity under any sequence of calls, and at no time are more than
    [maxKeys] keys retrievable. *)
Theorem bounded_capacity_kept (maxKeys : Z) (h : Heap) (ops : list Op) :
  (0 < maxKeys)%Z →
  ∃ s c ks,
    NewMemStore maxKeys = (Some s, None)
    ∧ keys (ms (apply_ops ops {| heap := h; ms := s |})) = Some c
    ∧ lru.size c = maxKeys
    ∧ NoDup ks
    ∧ (Z.of_nat (length ks) ≤ maxKeys)%Z
    ∧ ∀ k, retrievable (apply_ops ops {| heap := h; ms := s |}) k = true ↔ k ∈ ks.
Proof.
  intros Hpos. eexists. rewrite (NewMemStore_bounded _ Hpos).
  set (w0 := {| heap := h; ms := _ |}).
  assert (reachable w0) as Hr0.
  { apply (reach_New maxKeys). by apply NewMemStore_bounded. }
  pose proof (reachable_wf _ (apply_ops_reachable ops _ Hr0)) as (_ & _ & Hc).
  pose proof (apply_ops_capacity ops w0) as Hcap. unfold cache_ok in Hc.
  destruct (keys (ms (apply_ops ops w0))) as [c|] eqn:Hk; [|done].
  injection Hcap as Hsz. destruct Hc as (_ & Hlen & Hnd & _).
  exists c, (lru.evictList c).*1. split; [done|]. split; [done|]. split; [done|].
  split; [done|]. split; [rewrite length_fmap; lia|].
  intros k. rewrite retrievable_entry. unfold entry. rewrite Hk.
  split.
  - intros H. by destruct (decide (k ∈ (lru.evictList c).*1)) as [|Hn%peek_None].
  - by intros H Hn%peek_None.
Qed.

Lemma bounded_capacity_kept_witness :
  (0 < 1)%Z
  ∧ ∃ s c ks,
      NewMemStore 1 = (Some s, None)
      ∧ keys (ms (apply_ops [OpSetNX "a" 1; OpSetNX "b" 2; OpGet "a"]
                    {| heap := heap0; ms := s |})) = Some c
      ∧ lru.size c = 1%Z
      ∧ NoDup ks
      ∧ (Z.of_nat (length ks) ≤ 1)%Z
      ∧ ∀ k, retrievable (apply_ops [OpSetNX "a" 1; OpSetNX "b" 2; OpGet "a"]
                            {| heap := heap0; ms := s |}) k = true ↔ k ∈ ks.
Proof.
  split; [lia|].
  apply (bounded_capacity_kept 1 heap0 [OpSetNX "a" 1; OpSetNX "b" 2; OpGet "a"]). lia.
Defined.

Lemma apply_op_unbounded o w k p :
  keys (ms w) = None → entry (ms w) k = Some p →
  keys (ms (apply_op o w)) = None ∧ entry (ms (apply_op o w)) k = Some p.
Proof.
  intros Hk He. pose proof (apply_op_capacity o w) as Hcap. rewrite Hk in Hcap.
  split; [by destruct (keys (ms (apply_op o w)))|].
  destruct o as [key|key value|key old new]; simpl.
  - destruct (Get_hit _ _ _ He) as (_ & _ & _ & _).
    destruct (entry (ms w) key) as [q|] eqn:E.
    + destruct (Get_hit _ _ _ E) as (s' & -> & _ & Hs'). simpl. by rewrite Hs'.
    + by rewrite (Get_miss _ _ E).
  - destruct (entry (ms w) key) as [q|] eqn:E.
    + rewrite (SetNX_present _ _ _ _ E). simpl. by rewrite get_entry.
    + rewrite (SetNX_absent _ _ _ E). simpl. unfold entry, add_entry in *.
      rewrite Hk in *. simpl. rewrite lookup_insert_ne; [done|]. congruence.
  - destruct (entry (ms w) key) as [q|] eqn:E.
    + destruct (CompareAndSwap_hit w key old new q E) as (s' & -> & Hs'). simpl.
      by rewrite Hs'.
    + by rewrite (CompareAndSwap_absent _ _ _ _ E).
Qed.

(** X8.  In an unbounded store a key that is retrievable stays retrievable
    under any sequence of calls, and the store stays unbounded. *)
Theorem unbounded_keys_persist (w : World) (k : string) (ops : list Op) :
  keys (ms w) = None →
  retrievable w k = true →
  keys (ms (apply_ops ops w)) = None ∧ retrievable (apply_ops ops w) k = true.
Proof.
  rewrite !retrievable_entry. revert w.
  induction ops as [|o ops IH]; intros w Hk He; [done|].
  destruct (entry (ms w) k) as [p|] eqn:E; [|done].
  destruct (apply_op_unbounded o w k p Hk E) as [Hk' He'].
  apply (IH (apply_op o w)); [done|]. by rewrite He'.
Qed.

Lemma unbounded_keys_persist_witness :
  keys (ms unbounded_ab) = None
  ∧ retrievable unbounded_ab "a" = true
  ∧ keys (ms (apply_ops [OpSetNX "c" 3; OpCompareAndSwap "a" 1 4; OpGet "z"]
                unbounded_ab)) = None
  ∧ retrievable (apply_ops [OpSetNX "c" 3; OpCompareAndSwap "a" 1 4; OpGet "z"]
                   unbounded_ab) "a" = true.
Proof.
  split; [reflexivity|]. split; [vm_compute; reflexivity|].
  apply (unbounded_keys_persist unbounded_ab "a"
           [OpSetNX "c" 3; OpCompareAndSwap "a" 1 4; OpGet "z"]);
    [reflexivity | vm_compute; reflexivity].
Defined.

(** X9.  In an unbounded store the value of a key changes only through
    [CompareAndSwap] on that key: it is the same after any sequence of
    calls none of which is a [CompareAndSwap] on it. *)
Theorem value_changes_only_by_CompareAndSwap
    (w : World) (k : string) (v : Z) (ops : list Op) :
  reachable w →
  keys (ms w) = None →
  value_of w k = Some v →
  forallb (λ o, negb (cas_on k o)) ops = true →
  value_of (apply_ops ops w) k = Some v.
Proof.
  revert w. induction ops as [|o ops IH]; intros w Hr Hk Hv Hops; [done|].
  simpl in Hops. apply andb_prop in Hops as [Ho Hops].
  assert (reachable (apply_op o w)) as Hr' by (destruct o; simpl; by constructor).
  apply (IH (apply_op o w)); try done.
  - pose proof (apply_op_capacity o w) as Hcap. rewrite Hk in Hcap.
    by destruct (keys (ms (apply_op o w))).
  - destruct o as [key|key value|key old new]; simpl in *.
    + by rewrite Get_value_of.
    + destruct (SetNX_keeps w key value k v (reachable_wf _ Hr) Hv) as [H|(H & _)]; done.
    + rewrite CompareAndSwap_other; [done | by apply reachable_wf |].
      intros ->. by rewrite bool_decide_eq_true_2 in Ho.
Qed.

Lemma value_changes_only_by_CompareAndSwap_witness :
  reachable unbounded_ab
  ∧ keys (ms unbounded_ab) = None
  ∧ value_of unbounded_ab "a" = Some 1%Z
  ∧ forallb (λ o, negb (cas_on "a" o))
      [OpSetNX "a" 7; OpCompareAndSwap "b" 2 8; OpSetNX "c" 3; OpGet "a"] = true
  ∧ value_of (apply_ops [OpSetNX "a" 7; OpCompareAndSwap "b" 2 8; OpSetNX "c" 3; OpGet "a"]
                unbounded_ab) "a" = Some 1%Z.
Proof.
  split; [exact reachable_unbounded_ab|]. split; [reflexivity|].
  split; [vm_compute; reflexivity|]. split; [vm_compute; reflexivity|].
  apply (value_changes_only_by_CompareAndSwap unbounded_ab "a" 1
           [OpSetNX "a" 7; OpCompareAndSwap "b" 2 8; OpSetNX "c" 3; OpGet "a"]);
    [exact reachable_unbounded_ab | reflexivity | vm_compute; reflexivity
    | vm_compute; reflexivity].
Defined.

(** ** Eviction *)

Lemma SetNX_bounded_absent w c key value :
  wf w → keys (ms w) = Some c → entry (ms w) key = None →
  SetNX key value w =
    ((true, None),
     {| heap := (alloc value (heap w)).2;
        ms := {| keys :=
                   Some {| lru.size := lru.size c;
                           lru.evictList :=
                             take (Z.to_nat (lru.size c))
                                  ((key, brk (heap w)) :: lru.evictList c) |};
                 m := m (ms w) |} |}).
Proof.
  intros (_ & _ & Hc) Hk Habs. rewrite (SetNX_absent _ _ _ Habs).
  unfold cache_ok, entry, add_entry in *. rewrite Hk in *.
  destruct Hc as (_ & Hlen & _). by rewrite lru_Add_fresh.
Qed.

Lemma value_of_cons_other h c mm key b l k :
  k ≠ key →
  (∀ q, lru.peek k l = Some q → q < brk h) →
  value_of {| heap := (alloc b h).2;
              ms := {| keys := Some {| lru.size := c;
                                       lru.evictList := (key, brk h) :: l |};
                       m := mm |} |} k
  = cell h <$> lru.peek k l.
Proof.
  intros Hne Hal. unfold value_of, entry. simpl. rewrite decide_False by done.
  destruct (lru.peek k l) as [q|] eqn:E; [|done]. simpl.
  specialize (Hal q eq_refl). by rewrite decide_False by lia.
Qed.

(** X10.  In a bounded store a [SetNX] that creates an entry evicts at most
    one key.  Below capacity it evicts none: every other key keeps its
    value.  At capacity it evicts the least recently used key, the last of
    the recency order, and every key other than that one and the new one
    keeps its value. *)
Theorem SetNX_evicts_only_lru (w : World) (c : lru.Cache) (key : string) (value : Z) :
  reachable w →
  keys (ms w) = Some c →
  value_of w key = None →
  ((Z.of_nat (length (lru.evictList c)) < lru.size c)%Z →
     ∀ k, k ≠ key → value_of (SetNX key value w).2 k = value_of w k)
  ∧ (∀ l kl pl,
       lru.evictList c = l ++ [(kl, pl)] →
       Z.of_nat (length (lru.evictList c)) = lru.size c →
       value_of (SetNX key value w).2 kl = None
       ∧ ∀ k, k ≠ key → k ≠ kl → value_of (SetNX key value w).2 k = value_of w k).
Proof.
  intros Hw%reachable_wf Hk Habs%value_of_None.
  rewrite (SetNX_bounded_absent _ _ _ _ Hw Hk Habs).
  destruct Hw as (Hal & _ & Hc). unfold cache_ok in Hc. rewrite Hk in Hc.
  destruct Hc as (Hsz & Hlen & Hnd & _). cbn [snd].
  assert (∀ k, value_of w k = cell (heap w) <$> lru.peek k (lru.evictList c)) as Hval.
  { intros k. unfold value_of, entry. by rewrite Hk. }
  assert (∀ k q, lru.peek k (lru.evictList c) = Some q → q < brk (heap w)) as Hal'.
  { intros k q Hq. apply (Hal k). unfold entry. by rewrite Hk. }
  split.
  - intros Hroom k Hne. rewrite take_ge by (simpl; lia).
    rewrite value_of_cons_other, Hval; [done..|]. apply Hal'.
  - intros l kl pl Hl Hfull. rewrite Hl in *.
    rewrite length_app in Hfull. simpl in Hfull.
    replace (take (Z.to_nat (lru.size c)) ((key, brk (heap w)) :: l ++ [(kl, pl)]))
      with ((key, brk (heap w)) :: l)
      by (symmetry; apply (take_app_length' ((key, brk (heap w)) :: l)); simpl; lia).
    rewrite fmap_app in Hnd. apply NoDup_app in Hnd as (_ & Hdisj & _).
    assert (lru.peek kl l = None) as Hkl.
    { apply peek_None. intros Hin. apply (Hdisj _ Hin). simpl. apply list_elem_of_here. }
    assert (kl ≠ key) as Hklne.
    { intros ->. unfold entry in Habs. rewrite Hk, Hl, peek_app, Hkl in Habs.
      simpl in Habs. by rewrite decide_True in Habs. }
    assert (∀ k q, lru.peek k l = Some q → q < brk (heap w)) as Hal''.
    { intros k q Hq. apply (Hal' k). by rewrite peek_app, Hq. }
    split.
    + rewrite value_of_cons_other, Hkl; [done..|]. apply Hal''.
    + intros k Hne Hnekl. rewrite value_of_cons_other; [|done|apply Hal''].
      rewrite Hval, peek_app. destruct (lru.peek k l); [done|].
      simpl. by rewrite decide_False.
Qed.

Lemma SetNX_evicts_only_lru_witness :
  reachable bounded2_ab
  ∧ keys (ms bounded2_ab) = Some {| lru.size := 2; lru.evictList := [("b", 1); ("a", 0)] |}
  ∧ value_of bounded2_ab "c" = None
  ∧ value_of (SetNX "c" 3 bounded2_ab).2 "a" = None
  ∧ ∀ k, k ≠ "c" → k ≠ "a" →
         value_of (SetNX "c" 3 bounded2_ab).2 k = value_of bounded2_ab k.
Proof.
  split; [exact reachable_bounded2_ab|]. split; [reflexivity|]. split; [reflexivity|].
  exact (proj2 (SetNX_evicts_only_lru bounded2_ab
                  {| lru.size := 2; lru.evictList := [("b", 1); ("a", 0)] |} "c" 3
                  reachable_bounded2_ab eq_refl eq_refl)
               [("b", 1)] "a" 0 eq_refl eq_refl).
Defined.

(** X11.  In a bounded store of capacity at least two, a key that [Get] has
    just retrieved survives the next [SetNX] of a new key: the lookup has
    made it the most recently used. *)
Theorem Get_protects_from_eviction
    (w : World) (c : lru.Cache) (k key : string) (v value : Z) :
  reachable w →
  keys (ms w) = Some c →
  (2 ≤ lru.size c)%Z →
  value_of w k = Some v →
  value_of w key = None →
  value_of (SetNX key value (Get k w).2).2 k = Some v.
Proof.
  intros Hr Hk Hsz (p & Hp & Hv)%value_of_Some Habs%value_of_None.
  assert (k ≠ key) as Hne by congruence.
  set (w1 := (Get k w).2).
  assert (reachable w1) as Hr1 by by constructor.
  pose proof (reachable_wf _ Hr1) as Hw1.
  assert (heap w1 = heap w ∧ m (ms w1) = m (ms w) ∧
          ∃ r, keys (ms w1) = Some {| lru.size := lru.size c;
                                      lru.evictList := (k, p) :: r |})
    as (Hheap & Hm & r & Hk1).
  { unfold w1, Get, get, entry in *. rewrite Hk in *. unfold lru.Get.
    destruct (lru.extract k (lru.evictList c)) as [[q r]|] eqn:Ex.
    - pose proof Ex as (l1 & l2 & Hl & -> & Hl1)%extract_Some.
      rewrite Hl, peek_app, Hl1 in Hp. simpl in Hp. rewrite decide_True in Hp by done.
      injection Hp as ->. simpl. split; [done|]. split; [done|]. by eexists.
    - apply extract_None in Ex. congruence. }
  assert (entry (ms w1) key = None) as Habs1.
  { unfold w1, Get. pose proof (get_entry k false (ms w) key) as He.
    destruct (get k false (ms w)) as [[q|] s]; simpl in *; congruence. }
  rewrite (SetNX_bounded_absent _ _ _ _ Hw1 Hk1 Habs1). cbn [snd lru.size lru.evictList].
  destruct (Z.to_nat (lru.size c)) as [|[|n]] eqn:En; [lia..|].
  cbn [take]. unfold value_of, entry. simpl.
  rewrite decide_False by done. rewrite decide_True by done. simpl.
  destruct Hw1 as (Hal1 & _). specialize (Hal1 k p). unfold entry in Hal1.
  rewrite Hk1 in Hal1. simpl in Hal1. rewrite decide_True in Hal1 by done.
  specialize (Hal1 eq_refl). rewrite decide_False by lia. by rewrite Hheap, Hv.
Qed.

Lemma Get_protects_from_eviction_witness :
  reachable bounded2_ab
  ∧ keys (ms bounded2_ab) = Some {| lru.size := 2; lru.evictList := [("b", 1); ("a", 0)] |}
  ∧ (2 ≤ 2)%Z
  ∧ value_of bounded2_ab "a" = Some 1%Z
  ∧ value_of bounded2_ab "c" = None
  ∧ value_of (SetNX "c" 3 (Get "a" bounded2_ab).2).2 "a" = Some 1%Z.
Proof.
  split; [exact reachable_bounded2_ab|]. split; [reflexivity|]. split; [lia|].
  split; [reflexivity|]. split; [reflexivity|].
  apply (Get_protects_from_eviction bounded2_ab
           {| lru.size := 2; lru.evictList := [("b", 1); ("a", 0)] |} "a" "c" 1 3);
    [exact reachable_bounded2_ab | reflexivity | simpl; lia | reflexivity | reflexivity].
Defined.

(** ** Races *)

Lemma thread_step_excl key t w l t' w' l' :
  thread_step key t w l = Some (t', w', l') →
  (writer l = true → readers l = 0) →
  (writer l' = true → readers l' = 0).
Proof.
  intros H Hex. step_cases H; simpl in *; try done.
  - intros Hw. by rewrite (Hex Hw).
  - intros _. apply orb_false_elim in Heqb as [_ Hr].
    apply negb_false_iff in Hr. by apply Nat.eqb_eq in Hr.
Qed.

Lemma step_lock_ok key i c c' : lock_ok c → step key i c = Some c' → lock_ok c'.
Proof.
  intros (Hcrit & Hread & Hex) Hstep. unfold step in Hstep.
  destruct (threads c !! i) as [t|] eqn:Hi; [|done].
  destruct (thread_step key t (world c) (mu c)) as [[[t' w'] l']|] eqn:Hst; [|done].
  injection Hstep as <-.
  pose proof (sum_list_with_insert (in_crit ∘ pc) _ _ _ t' Hi) as Sc.
  pose proof (sum_list_with_insert (in_read ∘ pc) _ _ _ t' Hi) as Sr.
  pose proof (sum_list_with_lookup_le (in_crit ∘ pc) _ _ _ Hi) as Lc.
  pose proof (sum_list_with_lookup_le (in_read ∘ pc) _ _ _ Hi) as Lr.
  pose proof (thread_step_crit _ _ _ _ _ _ _ Hst) as Tc.
  pose proof (thread_step_read _ _ _ _ _ _ _ Hst) as Tr.
  simpl in *. rewrite Hcrit in Lc. rewrite Hread in Lr.
  specialize (Tc Lc). specialize (Tr Lr).
  split; [simpl; lia|]. split; [simpl; lia|]. simpl.
  by apply (thread_step_excl _ _ _ _ _ _ _ Hst).
Qed.

Lemma run_lock_ok key sched c : lock_ok c → lock_ok (run key sched c).
Proof.
  revert c. induction sched as [|i sched IH]; intros c HI; simpl; [done|].
  apply IH. destruct (step key i c) as [c'|] eqn:E; simpl; [|done].
  by apply (step_lock_ok key i c).
Qed.

(** X12.  Whatever the store, the values and the schedule, the racing calls
    keep to the lock: at most one call is between its [ms.Lock()] and its
    deferred [ms.Unlock()], and while one is, no call is between the
    [RLock] and the [RUnlock] of its unlocked [get]. *)
Theorem race_lock_discipline
    (key : string) (vs : list Z) (w : World) (sched : list nat)
    (i j : nat) (ti tj : Thread) :
  threads (run key sched (init w vs)) !! i = Some ti →
  threads (run key sched (init w vs)) !! j = Some tj →
  in_crit (pc ti) = 1 →
  in_read (pc tj) = 0 ∧ (in_crit (pc tj) = 1 → i = j).
Proof.
  intros Hi Hj Hci.
  destruct (run_lock_ok key sched (init w vs)) as (Hcrit & Hread & Hex).
  { split; [by apply sum_init|]. split; [by apply sum_init | done]. }
  pose proof (sum_list_with_lookup_le (in_crit ∘ pc) _ _ _ Hi) as Lc.
  simpl in Lc. rewrite Hcrit, Hci in Lc.
  destruct (writer (mu (run key sched (init w vs)))) eqn:Hw; simpl in Lc; [|lia].
  split.
  - apply (sum_list_with_zero (in_read ∘ pc) (threads (run key sched (init w vs))) j tj);
      [|done].
    rewrite Hread. by apply Hex.
  - intros Hcj. destruct (decide (i = j)) as [|Hne]; [done|].
    pose proof (sum_list_with_others (in_crit ∘ pc) _ _ _ Hi) as Ho.
    simpl in Ho. rewrite Hcrit, Hci in Ho. specialize (Ho ltac:(simpl; lia) j tj).
    rewrite Ho in Hcj; [done | congruence | done].
Qed.

Lemma race_lock_discipline_witness :
  threads (run "k" [0; 0; 0; 0] (init unbounded0 [7%Z; 8%Z])) !! 0
    = Some {| pc := Locked; value := 7 |}
  ∧ threads (run "k" [0; 0; 0; 0] (init unbounded0 [7%Z; 8%Z])) !! 1
    = Some {| pc := Start; value := 8 |}
  ∧ in_crit Locked = 1
  ∧ in_read Start = 0
  ∧ (in_crit Start = 1 → 0 = 1).
Proof.
  split; [reflexivity|]. split; [reflexivity|]. split; [reflexivity|].
  apply (race_lock_discipline "k" [7%Z; 8%Z] unbounded0 [0; 0; 0; 0] 0 1
           {| pc := Locked; value := 7 |} {| pc := Start; value := 8 |});
    reflexivity.
Defined.

Lemma step_present_inv key w0 c i c' p :
  entry (ms w0) key = Some p →
  present_inv w0 c → step key i c = Some c' → present_inv w0 c'.
Proof.
  intros Hp (Hheap & Hent & Hw & Hts) Hstep. unfold step in Hstep.
  destruct (threads c !! i) as [t|] eqn:Hi; [|done].
  destruct (thread_step key t (world c) (mu c)) as [[[t' w'] l']|] eqn:Hst; [|done].
  injection Hstep as <-.
  pose proof (proj1 (Forall_lookup _ _) Hts _ _ Hi) as Ht. simpl in Ht.
  assert (pc t ≠ Inserting) as Hins by (intros H; by rewrite H in Ht).
  destruct (thread_step_world _ _ _ _ _ _ _ Hst Hins) as (Hheap' & Hent' & _).
  assert (writer l' = false ∧ lost (pc t') = true) as [Hw' Ht'].
  { step_cases Hst; simpl in *; try done;
      try match goal with
        | E : get ?k ?b ?s = (?v, _) |- _ =>
            pose proof (get_fst k b s) as Hv; rewrite E in Hv; simpl in Hv;
            rewrite Hent, Hp in Hv; subst v
        end; try done.
    by destruct valP. }
  split; [simpl; congruence|]. split; [intros k; simpl; by rewrite Hent'|].
  split; [done|]. simpl. by apply Forall_insert.
Qed.

Lemma run_present_inv key w0 sched c p :
  entry (ms w0) key = Some p → present_inv w0 c → present_inv w0 (run key sched c).
Proof.
  intros Hp. revert c. induction sched as [|i sched IH]; intros c HI; simpl; [done|].
  apply IH. destruct (step key i c) as [c'|] eqn:E; simpl; [|done].
  by apply (step_present_inv key w0 c i c' p).
Qed.

Lemma present_enabled key w0 c :
  present_inv w0 c → ¬ all_done c → ∃ i c', step key i c = Some c'.
Proof.
  intros (_ & _ & Hw & Hts) Hnd.
  apply not_Forall_Exists in Hnd; [|intros ?; apply _].
  apply Exists_exists in Hnd as (t & [i Hi]%list_elem_of_lookup_1 & Hd).
  pose proof (proj1 (Forall_lookup _ _) Hts _ _ Hi) as Ht. simpl in Ht, Hd.
  exists i. unfold step. rewrite Hi. unfold is_done in Hd.
  assert (thread_step key t (world c) (mu c) ≠ None) as Hen.
  { unfold thread_step. rewrite Hw. destruct (pc t); try done.
    - destruct (keys (ms (world c))); [|done].
      by destruct (get key false (ms (world c))).
    - by destruct (get key false (ms (world c))). }
  destruct (thread_step key t (world c) (mu c)) as [[[t' w'] l']|]; [|done].
  by eexists.
Qed.

Lemma present_completes key w0 c p :
  entry (ms w0) key = Some p →
  present_inv w0 c → ∃ sched, all_done (run key sched c).
Proof.
  intros Hp. remember (sum_list_with (remaining ∘ pc) (threads c)) as n eqn:Hn.
  revert c Hn. induction (lt_wf n) as [n _ IH]. intros c -> HI.
  destruct (decide (all_done c)) as [Hd|Hd]; [by exists []|].
  destruct (present_enabled key _ _ HI Hd) as (i & c' & Hstep).
  destruct (IH _ (step_remaining _ _ _ _ Hstep) c' eq_refl) as [sched Hsched].
  { by apply (step_present_inv key w0 c i c' p). }
  exists (i :: sched). simpl. by rewrite Hstep.
Qed.

(** X13.  Calls of [SetNX] racing on a key that is already in the store all
    lose: under every schedule a call that has returned has returned
    [(false, nil)], no call ever takes the write lock, every key has the
    value it had, and the calls can always all return. *)
Theorem SetNX_race_on_existing_key (key : string) (vs : list Z) (w : World) (v : Z) :
  value_of w key = Some v →
  (∀ sched,
     (∀ j r, returned (run key sched (init w vs)) j = Some r → r = (false, None))
     ∧ writer (mu (run key sched (init w vs))) = false
     ∧ (∀ k, value_of (world (run key sched (init w vs))) k = value_of w k))
  ∧ (∀ sched, ∃ sched', all_done (run key (sched ++ sched') (init w vs))).
Proof.
  intros (p & Hp & _)%value_of_Some.
  assert (present_inv w (init w vs)) as HI0.
  { split; [done|]. split; [done|]. split; [done|]. simpl.
    apply Forall_fmap, Forall_true. by intros ?. }
  split.
  - intros sched.
    destruct (run_present_inv key w sched _ p Hp HI0) as (Hheap & Hent & Hw & Hts).
    split; [|split; [done|]].
    + intros j r. unfold returned.
      destruct (threads (run key sched (init w vs)) !! j) as [[pj vj]|] eqn:Hj; [|done].
      pose proof (proj1 (Forall_lookup _ _) Hts _ _ Hj) as Ht. simpl in Ht.
      destruct pj as [| | | | | | |[[] [e|]]]; try done. by intros [= <-].
    + intros k. unfold value_of. by rewrite Hheap, Hent.
  - intros sched.
    destruct (present_completes key w (run key sched (init w vs)) p Hp) as [sched' Hd].
    { by apply (run_present_inv key w sched _ p). }
    exists sched'. by rewrite run_app.
Qed.

Lemma SetNX_race_on_existing_key_witness :
  value_of bounded2_ab "a" = Some 1%Z
  ∧ (∀ sched,
       (∀ j r, returned (run "a" sched (init bounded2_ab [7%Z; 8%Z])) j = Some r →
               r = (false, None))
       ∧ writer (mu (run "a" sched (init bounded2_ab [7%Z; 8%Z]))) = false
       ∧ (∀ k, value_of (world (run "a" sched (init bounded2_ab [7%Z; 8%Z]))) k
               = value_of bounded2_ab k))
  ∧ (∀ sched, ∃ sched',
       all_done (run "a" (sched ++ sched') (init bounded2_ab [7%Z; 8%Z]))).
Proof.
  split; [reflexivity|].
  apply (SetNX_race_on_existing_key "a" [7%Z; 8%Z] bounded2_ab 1). reflexivity.
Defined.

(** ** Eviction follows touch recency *)

Lemma age_snoc k ops o :
  age k (ops ++ [o]) = if decide (key_of o = k) then 0 else S (age k ops).
Proof. unfold age. by rewrite fmap_snoc, reverse_snoc. Qed.

Lemma inserted_snoc ops o :
  inserted (ops ++ [o]) =
    inserted ops ++ match o with OpSetNX key _ => [key] | _ => [] end.
Proof.
  induction ops as [|o' ops IH]; simpl.
  - by destruct o.
  - destruct o'; simpl; by rewrite IH.
Qed.

Lemma apply_ops_snoc ops o w : apply_ops (ops ++ [o]) w = apply_op o (apply_ops ops w).
Proof. unfold apply_ops. by rewrite foldl_snoc. Qed.

Lemma remove_dups_length_mono (l1 l2 : list string) :
  (∀ k, k ∈ l1 → k ∈ l2) → length (remove_dups l1) ≤ length (remove_dups l2).
Proof.
  intros Hsub. apply submseteq_length, NoDup_submseteq; [apply NoDup_remove_dups|].
  intros k. rewrite !elem_of_remove_dups. apply Hsub.
Qed.

Lemma NoDup_length_remove_dups (l1 l2 : list string) :
  NoDup l1 → (∀ k, k ∈ l1 ↔ k ∈ l2) → length l1 = length (remove_dups l2).
Proof.
  intros Hnd Heq. apply Permutation_length, NoDup_Permutation;
    [done | apply NoDup_remove_dups|].
  intros k. by rewrite elem_of_remove_dups.
Qed.

Lemma sorted_age_snoc l ops o :
  key_of o ∉ l →
  StronglySorted (λ k1 k2, age k1 ops < age k2 ops) l →
  StronglySorted (λ k1 k2, age k1 (ops ++ [o]) < age k2 (ops ++ [o])) (key_of o :: l).
Proof.
  intros Hout Hs. apply StronglySorted_cons. split.
  - apply Forall_forall. intros k Hk. rewrite !age_snoc, decide_True by done.
    rewrite decide_False; [lia|]. by intros <-.
  - induction l as [|k l IH]; [constructor|].
    apply not_elem_of_cons in Hout as [Hne Hout].
    apply StronglySorted_cons in Hs as [Hk Hs].
    apply StronglySorted_cons. split; [|by apply IH].
    apply Forall_forall. intros k' Hk'. rewrite !age_snoc.
    assert (key_of o ≠ k') as Hne' by (by intros <-).
    rewrite !decide_False by done.
    pose proof (proj1 (Forall_forall _ _) Hk _ Hk') as Hlt. simpl in Hlt. lia.
Qed.

Lemma sorted_age_miss l ops o :
  key_of o ∉ l →
  StronglySorted (λ k1 k2, age k1 ops < age k2 ops) l →
  StronglySorted (λ k1 k2, age k1 (ops ++ [o]) < age k2 (ops ++ [o])) l.
Proof.
  intros Hout Hs.
  by apply (sorted_age_snoc l ops o Hout), StronglySorted_cons in Hs as [_ Hs].
Qed.

Lemma get_hit_keys key b s c p :
  keys s = Some c → entry s key = Some p →
  ∃ l1 l2,
    lru.evictList c = l1 ++ (key, p) :: l2
    ∧ keys (get key b s).2 =
        Some {| lru.size := lru.size c; lru.evictList := (key, p) :: (l1 ++ l2) |}.
Proof.
  unfold entry, get. intros -> Hp. unfold lru.Get.
  destruct (lru.extract key (lru.evictList c)) as [[q r]|] eqn:Ex.
  - pose proof Ex as (l1 & l2 & Hl & -> & Hl1)%extract_Some.
    rewrite Hl, peek_app, Hl1 in Hp. simpl in Hp. rewrite decide_True in Hp by done.
    injection Hp as ->. by exists l1, l2.
  - apply extract_None in Ex. congruence.
Qed.

Lemma apply_op_hit_keys o w p :
  entry (ms w) (key_of o) = Some p →
  keys (ms (apply_op o w)) = keys (get (key_of o) false (ms w)).2.
Proof.
  intros Hp. pose proof (get_fst (key_of o) false (ms w)) as Hv. rewrite Hp in Hv.
  destruct o as [key|key value|key old new]; simpl in *.
  - unfold Get. destruct (get key false (ms w)) as [[q|] s]; by simplify_eq/=.
  - by rewrite (SetNX_present _ _ _ _ Hp).
  - unfold CompareAndSwap. destruct (get key false (ms w)) as [[q|] s]; simplify_eq/=.
    by destruct (CompareAndSwapInt64 _ old new (heap w)).
Qed.

Lemma apply_op_miss o w :
  entry (ms w) (key_of o) = None →
  (∀ key value, o ≠ OpSetNX key value) →
  apply_op o w = w.
Proof.
  intros Habs Hno. destruct o as [key|key value|key old new]; simpl in *.
  - by rewrite (Get_miss _ _ Habs).
  - by destruct (Hno key value).
  - by rewrite (CompareAndSwap_absent _ _ _ _ Habs).
Qed.

(** While no more than [K] distinct keys have been inserted, the cache of a
    store of capacity [K] holds exactly the inserted keys, the most
    recently touched first. *)
Lemma bounded_trace_order (K : Z) (h : Heap) (ops : list Op) :
  (0 < K)%Z →
  (Z.of_nat (length (remove_dups (inserted ops))) ≤ K)%Z →
  ∃ c,
    keys (ms (apply_ops ops
                {| heap := h;
                   ms := {| keys := Some {| lru.size := K; lru.evictList := [] |};
                            m := ∅ |} |})) = Some c
    ∧ lru.size c = K
    ∧ (∀ k, k ∈ (lru.evictList c).*1 ↔ k ∈ inserted ops)
    ∧ StronglySorted (λ k1 k2, age k1 ops < age k2 ops) (lru.evictList c).*1.
Proof.
  intros HK. set (w0 := {| heap := h; ms := _ |}).
  assert (reachable w0) as Hr0.
  { apply (reach_New K). by apply NewMemStore_bounded. }
  induction ops as [|o ops IH] using rev_ind; intros Hcount.
  - eexists. split; [done|]. split; [done|]. split; [done|]. constructor.
  - rewrite inserted_snoc in Hcount.
    destruct IH as (c & Hk & Hsz & Hel & Hsorted).
    { pose proof (remove_dups_length_mono (inserted ops)
                    (inserted ops ++ match o with OpSetNX key _ => [key] | _ => [] end)).
      rewrite <- Hcount. apply inj_le, H. intros k Hk. apply elem_of_app. by left. }
    rewrite apply_ops_snoc. set (w := apply_ops ops w0) in *.
    pose proof (reachable_wf _ (apply_ops_reachable ops _ Hr0)) as Hwf. fold w in Hwf.
    pose proof Hwf as (_ & _ & Hc). unfold cache_ok in Hc. rewrite Hk in Hc.
    destruct Hc as (_ & Hlen & Hnd & _).
    assert (∀ k, k ∈ inserted (ops ++ [o]) ↔ (∃ v, o = OpSetNX k v) ∨ k ∈ inserted ops)
      as Hins.
    { intros k. rewrite inserted_snoc, elem_of_app.
      destruct o as [key|key value|key old new]; simpl.
      - rewrite elem_of_nil. split; [intros [H|[]]; by right|].
        intros [[v Hv]|H]; [done | by left].
      - rewrite list_elem_of_singleton. split.
        + intros [H| ->]; [by right | left; by eexists].
        + intros [[v [= ->]]|H]; [by right | by left].
      - rewrite elem_of_nil. split; [intros [H|[]]; by right|].
        intros [[v Hv]|H]; [done | by left]. }
    destruct (entry (ms w) (key_of o)) as [p|] eqn:E.
    + (* the call finds its key: the entry moves to the front *)
      rewrite (apply_op_hit_keys _ _ _ E).
      destruct (get_hit_keys (key_of o) false _ _ _ Hk E) as (l1 & l2 & Hl & ->).
      rewrite Hl in *. rewrite fmap_app, fmap_cons in Hnd, Hsorted, Hel. simpl in *.
      eexists. split; [done|]. split; [done|]. simpl.
      apply NoDup_app in Hnd as (Hnd1 & Hdisj & [Hout2 Hnd2]%NoDup_cons).
      assert (key_of o ∉ l1.*1 ++ l2.*1) as Hout.
      { intros [H1|H2]%elem_of_app; [|done].
        apply (Hdisj _ H1). apply list_elem_of_here. }
      split.
      * intros k. rewrite Hins, <- Hel, fmap_app, elem_of_cons, !elem_of_app, elem_of_cons.
        split.
        -- intros [->|[H|H]]; right; [right; by left | by left | right; by right].
        -- intros [[v ->]|[H|[->|H]]]; [by left | right; by left | by left
                                       | right; by right].
      * rewrite fmap_app. apply sorted_age_snoc; [done|].
        apply StronglySorted_app in Hsorted as (Hcross & Hs1 & [_ Hs2]%StronglySorted_cons).
        apply StronglySorted_app. split; [|done].
        intros x1 x2 H1 H2. apply Hcross; [done|]. by apply list_elem_of_further.
    + assert (key_of o ∉ (lru.evictList c).*1) as Hout.
      { apply peek_None. unfold entry in E. by rewrite Hk in E. }
      assert ((∃ key value, o = OpSetNX key value) ∨ ¬ ∃ key value, o = OpSetNX key value)
        as [(key & value & ->)|Hno].
      { destruct o; [right; by intros (? & ? & ?) | left; by eexists _, _
                    | right; by intros (? & ? & ?)]. }
      * (* a new key: there is room for it, it goes to the front *)
        simpl in *. rewrite (SetNX_bounded_absent _ _ _ _ Hwf Hk E). simpl.
        assert (length (remove_dups (inserted ops ++ [key]))
                = S (length (lru.evictList c))) as Hcnt.
        { symmetry. rewrite <- (length_fmap fst).
          apply (NoDup_length_remove_dups (key :: (lru.evictList c).*1)).
          - by apply NoDup_cons.
          - intros k. rewrite elem_of_cons, elem_of_app, list_elem_of_singleton, Hel.
            split; [intros [->|H]; [by right | by left]
                   | intros [H| ->]; [by right | by left]]. }
        rewrite take_ge by (simpl; lia).
        eexists. split; [done|]. split; [done|]. simpl. split.
        -- intros k. rewrite Hins, elem_of_cons, Hel. split.
           ++ intros [->|H]; [left; by eexists | by right].
           ++ intros [[v [= ->]]|H]; [by left | by right].
        -- by apply (sorted_age_snoc _ ops (OpSetNX key value)).
      * (* a miss: nothing changes *)
        rewrite apply_op_miss; [|done|intros key value ->; apply Hno; by eexists _, _].
        exists c. split; [done|]. split; [done|]. split.
        -- intros k. rewrite Hins, Hel. split; [by right|].
           intros [[v ->]|H]; [|done]. destruct Hno. by eexists _, _.
        -- by apply sorted_age_miss.
Qed.

(** C6.  A store built with a positive capacity [K] goes through any
    sequence of calls in which [SetNX] is called on exactly [K] distinct
    keys, with lookups, swaps and repeated [SetNX] calls in between: all [K]
    keys are retrievable.  A [SetNX] on one more key then creates its entry
    and leaves exactly [K] keys retrievable: the key that is gone is the
    least recently touched one, the inserted key that no call has been
    about for the longest time, whatever the order of insertion; every
    other key keeps its value.  A key that is gone and a key that was never
    set behave alike: [Get] and [CompareAndSwap] return the no-such-key
    error and [SetNX] creates the entry. *)
Theorem bounded_evicts_least_recently_touched
    (K : Z) (h : Heap) (ops : list Op) (k_new : string) (v_new : Z) :
  (0 < K)%Z →
  Z.of_nat (length (remove_dups (inserted ops))) = K →
  k_new ∉ inserted ops →
  ∃ s wb w k_old ks,
    NewMemStore K = (Some s, None)
    ∧ wb = apply_ops ops {| heap := h; ms := s |}
    ∧ (∀ k, retrievable wb k = true ↔ k ∈ inserted ops)
    ∧ SetNX k_new v_new wb = ((true, None), w)
    ∧ k_old ∈ inserted ops
    ∧ (∀ k, k ∈ inserted ops → k ≠ k_old → age k ops < age k_old ops)
    ∧ Get k_old w = ((0%Z, Some ErrNoSuchKey), w)
    ∧ (∀ k, retrievable w k = true ↔ k = k_new ∨ (k ∈ inserted ops ∧ k ≠ k_old))
    ∧ NoDup ks
    ∧ Z.of_nat (length ks) = K
    ∧ (∀ k, retrievable w k = true ↔ k ∈ ks)
    ∧ (Get k_new w).1 = (v_new, None)
    ∧ (∀ k, k ∈ inserted ops → k ≠ k_old → value_of w k = value_of wb k)
    ∧ (∀ k v, retrievable w k = false →
         Get k w = ((0%Z, Some ErrNoSuchKey), w)
         ∧ (∀ old new, CompareAndSwap k old new w = ((false, Some ErrNoSuchKey), w))
         ∧ ∃ w'', SetNX k v w = ((true, None), w'') ∧ (Get k w'').1 = (v, None)).
Proof.
  intros HK Hcount Hnew. eexists. rewrite (NewMemStore_bounded _ HK).
  set (w0 := {| heap := h; ms := _ |}).
  assert (reachable w0) as Hr0.
  { apply (reach_New K). by apply NewMemStore_bounded. }
  destruct (bounded_trace_order K h ops HK ltac:(lia)) as (c & Hk & Hsz & Hel & Hsorted).
  fold w0 in Hk. set (wb := apply_ops ops w0) in *.
  pose proof (reachable_wf _ (apply_ops_reachable ops _ Hr0)) as Hwf. fold wb in Hwf.
  pose proof Hwf as (Hal & _ & Hc). unfold cache_ok in Hc. rewrite Hk in Hc.
  destruct Hc as (_ & _ & Hnd & _).
  assert (length (lru.evictList c) = length (remove_dups (inserted ops))) as Hlen.
  { rewrite <- (length_fmap fst). by apply NoDup_length_remove_dups. }
  assert (∃ l k_old p_old, lru.evictList c = l ++ [(k_old, p_old)]) as (l & k_old & p_old & Hl).
  { destruct (lru.evictList c) as [|[k p] l _] using rev_ind; [simpl in *; lia|].
    by exists l, k, p. }
  rewrite Hl, fmap_app in Hel, Hnd, Hsorted. simpl in Hel, Hnd, Hsorted.
  rewrite Hl, length_app in Hlen. simpl in Hlen.
  apply NoDup_app in Hnd as (Hndl & Hdisj & _).
  assert (k_old ∉ l.*1) as Hold_l.
  { intros Hin. apply (Hdisj _ Hin). apply list_elem_of_here. }
  assert (∀ k, entry (ms wb) k = lru.peek k (l ++ [(k_old, p_old)])) as Hentry_b.
  { intros k. unfold entry. by rewrite Hk, Hl. }
  assert ((k_new ∉ l.*1) ∧ k_new ≠ k_old) as [Hnew_l Hnew_old].
  { split.
    - intros Hin. apply Hnew, Hel, elem_of_app. by left.
    - intros ->. apply Hnew, Hel, elem_of_app. right. apply list_elem_of_here. }
  assert (entry (ms wb) k_new = None) as Habs.
  { rewrite Hentry_b. apply peek_None. rewrite fmap_app. simpl.
    intros [H|H%list_elem_of_singleton]%elem_of_app; done. }
  pose proof (SetNX_bounded_absent _ _ k_new v_new Hwf Hk Habs) as HSet.
  rewrite Hl in HSet.
  replace (take (Z.to_nat (lru.size c)) ((k_new, brk (heap wb)) :: l ++ [(k_old, p_old)]))
    with ((k_new, brk (heap wb)) :: l) in HSet
    by (symmetry; apply (take_app_length' ((k_new, brk (heap wb)) :: l)); simpl; lia).
  set (w := {| heap := (alloc v_new (heap wb)).2; ms := _ |}) in HSet.
  assert (∀ k, entry (ms w) k = lru.peek k ((k_new, brk (heap wb)) :: l)) as Hentry by done.
  assert (∀ k, retrievable w k = true ↔ k ∈ k_new :: l.*1) as Hretr.
  { intros k. rewrite retrievable_entry, Hentry.
    change (k_new :: l.*1) with (((k_new, brk (heap wb)) :: l).*1). split.
    - intros H. by destruct (decide (k ∈ ((k_new, brk (heap wb)) :: l).*1))
                     as [|Hn%peek_None].
    - by intros H Hn%peek_None. }
  assert (∀ k, k ≠ k_new → value_of w k = cell (heap wb) <$> lru.peek k l) as Hval.
  { intros k Hne. apply value_of_cons_other; [done|]. intros q Hq.
    apply (Hal k). by rewrite Hentry_b, peek_app, Hq. }
  assert (∀ k, retrievable w k = false → entry (ms w) k = None) as Hgone.
  { intros k Hk'. destruct (entry (ms w) k) eqn:E; [|done].
    assert (retrievable w k = true) by (apply retrievable_entry; congruence).
    congruence. }
  assert (store_ok (ms w)) as Hok by (unfold store_ok; simpl; lia).
  exists wb, w, k_old, (k_new :: l.*1).
  split; [done|]. split; [done|]. split.
  { intros k. rewrite retrievable_entry, Hentry_b, <- Hel.
    change (l.*1 ++ [k_old]) with (l.*1 ++ [(k_old, p_old)].*1). rewrite <- fmap_app.
    split.
    - intros H. by destruct (decide (k ∈ (l ++ [(k_old, p_old)]).*1)) as [|Hn%peek_None].
    - by intros H Hn%peek_None. }
  split; [done|]. split; [apply Hel, elem_of_app; right; apply list_elem_of_here|].
  split.
  { intros k [Hin|Hin%list_elem_of_singleton]%Hel%elem_of_app Hne; [|done].
    apply (StronglySorted_app_1_elem_of _ _ _ _ _ Hsorted Hin). apply list_elem_of_here. }
  split.
  { apply Get_miss, Hgone. destruct (retrievable w k_old) eqn:E; [|done].
    apply Hretr in E. apply elem_of_cons in E as [->|E]; done. }
  split.
  { intros k. rewrite Hretr, elem_of_cons, <- Hel, elem_of_app, list_elem_of_singleton.
    split.
    - intros [->|Hin]; [by left|]. right. split; [by left|]. by intros ->.
    - intros [->|[[Hin| ->] Hne]]; [by left | by right | done]. }
  split; [by apply NoDup_cons|].
  split; [simpl; rewrite length_fmap; lia|]. split; [done|]. split.
  { destruct (Get_hit w k_new (brk (heap wb))) as (s' & -> & _).
    - rewrite Hentry. simpl. by rewrite decide_True.
    - simpl. by rewrite decide_True. }
  split.
  { intros k [Hin|Hin%list_elem_of_singleton]%Hel%elem_of_app Hne; [|done].
    assert (k ≠ k_new) as Hne' by (by intros ->).
    rewrite (Hval _ Hne'). unfold value_of. rewrite Hentry_b, peek_app.
    destruct (lru.peek k l) eqn:E; [done|]. apply peek_None in E. done. }
  intros k v Hk'%Hgone. split; [by apply Get_miss|].
  split; [intros; by apply CompareAndSwap_absent|].
  eexists. split; [by apply SetNX_absent|].
  destruct (Get_hit {| heap := (alloc v (heap w)).2;
                       ms := add_entry k (brk (heap w)) (ms w) |} k (brk (heap w)))
    as (s' & -> & _).
  - simpl. by apply entry_add_entry.
  - simpl. by rewrite decide_True.
Qed.

Lemma bounded_evicts_least_recently_touched_witness :
  (0 < 2)%Z
  ∧ Z.of_nat (length (remove_dups
                        (inserted [OpSetNX "a" 1; OpSetNX "b" 2; OpGet "a"]))) = 2%Z
  ∧ ("c" ∉ inserted [OpSetNX "a" 1; OpSetNX "b" 2; OpGet "a"])
  ∧ ∃ s wb w k_old ks,
      NewMemStore 2 = (Some s, None)
      ∧ wb = apply_ops [OpSetNX "a" 1; OpSetNX "b" 2; OpGet "a"] {| heap := heap0; ms := s |}
      ∧ (∀ k, retrievable wb k = true
              ↔ k ∈ inserted [OpSetNX "a" 1; OpSetNX "b" 2; OpGet "a"])
      ∧ SetNX "c" 3 wb = ((true, None), w)
      ∧ k_old ∈ inserted [OpSetNX "a" 1; OpSetNX "b" 2; OpGet "a"]
      ∧ (∀ k, k ∈ inserted [OpSetNX "a" 1; OpSetNX "b" 2; OpGet "a"] → k ≠ k_old →
              age k [OpSetNX "a" 1; OpSetNX "b" 2; OpGet "a"]
              < age k_old [OpSetNX "a" 1; OpSetNX "b" 2; OpGet "a"])
      ∧ Get k_old w = ((0%Z, Some ErrNoSuchKey), w)
      ∧ (∀ k, retrievable w k = true
              ↔ k = "c" ∨ (k ∈ inserted [OpSetNX "a" 1; OpSetNX "b" 2; OpGet "a"]
                           ∧ k ≠ k_old))
      ∧ NoDup ks
      ∧ Z.of_nat (length ks) = 2%Z
      ∧ (∀ k, retrievable w k = true ↔ k ∈ ks)
      ∧ (Get "c" w).1 = (3%Z, None)
      ∧ (∀ k, k ∈ inserted [OpSetNX "a" 1; OpSetNX "b" 2; OpGet "a"] → k ≠ k_old →
              value_of w k = value_of wb k)
      ∧ (∀ k v, retrievable w k = false →
           Get k w = ((0%Z, Some ErrNoSuchKey), w)
           ∧ (∀ old new, CompareAndSwap k old new w = ((false, Some ErrNoSuchKey), w))
           ∧ ∃ w'', SetNX k v w = ((true, None), w'') ∧ (Get k w'').1 = (v, None)).
Proof.
  assert ("c" ∉ inserted [OpSetNX "a" 1; OpSetNX "b" 2; OpGet "a"]) as Hnew.
  { apply (bool_decide_unpack (_ ∉ _)). vm_compute. exact I. }
  split; [lia|]. split; [vm_compute; reflexivity|]. split; [exact Hnew|].
  apply (bounded_evicts_least_recently_touched 2 heap0
           [OpSetNX "a" 1; OpSetNX "b" 2; OpGet "a"] "c" 3);
    [lia | vm_compute; reflexivity | exact Hnew].
Defined.

(** The same three keys in the same order of insertion: without the [Get],
    the third [SetNX] evicts ["a"]; with a [Get] on ["a"] before it, it
    evicts ["b"]. *)
Example touch_decides_the_victim :
  retrievable (apply_ops [OpSetNX "a" 1; OpSetNX "b" 2; OpSetNX "c" 3] bounded2)
    <$> ["a"; "b"; "c"] = [false; true; true]
  ∧ retrievable (apply_ops [OpSetNX "a" 1; OpSetNX "b" 2; OpGet "a"; OpSetNX "c" 3] bounded2)
      <$> ["a"; "b"; "c"] = [true; false; true]
  ∧ age "a" [OpSetNX "a" 1; OpSetNX "b" 2; OpGet "a"] = 0
  ∧ age "b" [OpSetNX "a" 1; OpSetNX "b" 2; OpGet "a"] = 1.
Proof. vm_compute. done. Qed.
